(** * helix-std: the type-erased callable box [$function<Rt(Tp...)>]

    A shallow embedding of [core/include/lang/function.hh].  The class keeps
    one raw owning pointer, [$callable *callable], to a heap-resident
    [Callable<T>]; every member function is translated below as a
    computation over an explicit store of box objects and heap objects. *)

From Stdlib Require Import Ascii.
From stdpp Require Import gmap strings list.

Set Default Proof Using "Type".

(** ** The signature, callables and what they may raise *)

Section Function.

(** The signature [Rt(Tp...)]: [Args] stands for the tuple [Tp...].
    [Exn] is whatever a wrapped callable may throw, and [World] is the
    program state outside the boxes that a callable can reach through
    what it captured by reference (globals, captured variables). *)
Variables (Rt Args Exn World : Type).

(** What one call of a C++ callable does: it returns or it throws. *)
Inductive outcome : Type :=
| Returns (v : Rt)
| Raises (e : Exn).

(** A type [T] that can be called as [callable(args...)]: a value of [T]
    carries its own (by-value) state, and a call may update that state
    and the world. *)
Record invocable : Type := {
  carrier : Type;
  call_op : carrier -> Args -> World -> outcome * carrier * World
}.

(** [struct Callable<T> : $callable { T callable; ... }].  The record
    packs [T] with the stored value, which is the type erasure the
    virtual base class performs. *)
Record Callable : Type := MkCallable {
  T : invocable;
  callable : carrier T
}.

(** [Rt invoke(Tp... args) override { return callable(forward<Tp>(args)...); }] *)
Definition Callable_invoke (c : Callable) (args : Args) (w : World)
  : outcome * Callable * World :=
  let '(r, t', w') := call_op (T c) (callable c) args w in
  (r, MkCallable (T c) t', w').

(** A plain function pointer to [Rt(Tp...)]: no state of its own. *)
Definition fnptr : Type := Args -> World -> outcome * World.

Definition fnptr_invocable : invocable := {|
  carrier := fnptr;
  call_op := fun f args w => let '(r, w') := f args w in (r, f, w')
|}.

(** The adapter the box builds around a function pointer [func]. *)
Definition Callable_of_fnptr (func : fnptr) : Callable :=
  MkCallable fnptr_invocable func.

(** ** Program state *)

(** [heap] holds the live [$callable] objects by address; [boxes] holds
    the live [$function] objects by address, each reduced to its single
    field [callable] ([None] is [nullptr]).  [released] logs every
    [delete] of an object, newest first.  [new_script] fixes the fate of
    the coming [new] expressions: [true] at the head makes the next one
    throw; an exhausted script lets every allocation succeed. *)
Record state : Type := MkState {
  heap : gmap nat Callable;
  boxes : gmap nat (option nat);
  released : list nat;
  new_script : list bool;
  world : World
}.

Definition set_heap (h : gmap nat Callable) (s : state) : state :=
  MkState h (boxes s) (released s) (new_script s) (world s).
Definition set_boxes (b : gmap nat (option nat)) (s : state) : state :=
  MkState (heap s) b (released s) (new_script s) (world s).
Definition set_world (w : World) (s : state) : state :=
  MkState (heap s) (boxes s) (released s) (new_script s) w.

(** Values that travel as C++ exceptions out of a member function. *)
Inductive thrown : Type :=
| throw_cstr (msg : string)   (* [throw "..."], a [const char *] *)
| bad_alloc                   (* raised by [operator new] *)
| from_callable (e : Exn).    (* raised inside the stored callable *)

(** The failure of [operator()] on an unset box. *)
Definition EmptyInvocation : thrown :=
  throw_cstr "called an unset function pointer".

(** A member function either completes, leaves by an exception, or has
    undefined behaviour (use of a dead box or a dangling pointer). *)
Inductive result (A : Type) : Type :=
| Done (a : A) (s : state)
| Throw (e : thrown) (s : state)
| Undefined.
Arguments Done {A} a s.
Arguments Throw {A} e s.
Arguments Undefined {A}.

Definition M (A : Type) : Type := state -> result A.

Definition ret {A} (a : A) : M A := fun s => Done a s.

Definition bind {A B} (m : M A) (k : A -> M B) : M B := fun s =>
  match m s with
  | Done a s' => k a s'
  | Throw e s' => Throw e s'
  | Undefined => Undefined
  end.

Definition throw {A} (e : thrown) : M A := fun s => Throw e s.

Notation "x <- m ;; k" := (bind m (fun x => k))
  (at level 100, m at next level, right associativity).
Notation "m ;;; k" := (bind m (fun _ => k))
  (at level 100, right associativity).

(** *** Primitive steps *)

(** [new Callable<...>(...)]: throws when the script says so, otherwise
    places the object at an address that holds no live object. *)
Definition new (c : Callable) : M nat := fun s =>
  match new_script s with
  | true :: rest =>
      Throw bad_alloc
        (MkState (heap s) (boxes s) (released s) rest (world s))
  | _ =>
      let l := fresh (dom (heap s)) in
      Done l (MkState (<[l := c]> (heap s)) (boxes s) (released s)
                      (tail (new_script s)) (world s))
  end.

(** [delete p]: nothing on [nullptr]; destroys a live object; anything
    else is a double free. *)
Definition delete_ptr (p : option nat) : M unit := fun s =>
  match p with
  | None => Done tt s
  | Some l =>
      match heap s !! l with
      | Some _ =>
          Done tt (MkState (delete l (heap s)) (boxes s)
                           (l :: released s) (new_script s) (world s))
      | None => Undefined
      end
  end.

(** Reading the field [callable] of the box at [this]. *)
Definition load (this : nat) : M (option nat) := fun s =>
  match boxes s !! this with
  | Some p => Done p s
  | None => Undefined
  end.

(** Assigning to the field [callable] of the live box at [this]. *)
Definition store (this : nat) (p : option nat) : M unit := fun s =>
  match boxes s !! this with
  | Some _ => Done tt (set_boxes (<[this := p]> (boxes s)) s)
  | None => Undefined
  end.

(** A constructor's initialisation of [callable]: the box at [this]
    starts to exist. *)
Definition init (this : nat) (p : option nat) : M unit := fun s =>
  Done tt (set_boxes (<[this := p]> (boxes s)) s).

(** [p->invoke(args...)] through the virtual table. *)
Definition invoke (l : nat) (args : Args) : M Rt := fun s =>
  match heap s !! l with
  | None => Undefined
  | Some c =>
      let '(r, c', w') := Callable_invoke c args (world s) in
      let s' := set_world w' (set_heap (<[l := c']> (heap s)) s) in
      match r with
      | Returns v => Done v s'
      | Raises e => Throw (from_callable e) s'
      end
  end.

(** [p->clone()]: [new Callable(callable)], a copy of the stored value. *)
Definition clone (l : nat) : M nat := fun s =>
  match heap s !! l with
  | None => Undefined
  | Some c => new (MkCallable (T c) (callable c)) s
  end.

(** ** The member functions of [$function<Rt(Tp...)>] *)

(** [$function() : callable(nullptr) {}] *)
Definition function_default (this : nat) : M unit :=
  init this None.

(** [$function($function &&other) noexcept : callable(other.callable)
    { other.callable = nullptr; }] *)
Definition function_move (this other : nat) : M unit :=
  p <- load other ;;
  init this p ;;;
  store other None.

(** [$function(const $function &other)
    : callable(other.callable ? other.callable->clone() : nullptr) {}] *)
Definition function_copy (this other : nat) : M unit :=
  p <- load other ;;
  q <- match p with
       | Some l => l' <- clone l ;; ret (Some l')
       | None => ret None
       end ;;
  init this q.

(** [template <typename T> $function(T $call_o)
    { callable = new Callable<decay_t<T>>(forward<T>($call_o)); }] *)
Definition function_of (this : nat) (T : invocable) (call_o : carrier T)
  : M unit :=
  l <- new (MkCallable T call_o) ;;
  init this (Some l).

(** The constructor from a function pointer:
    [: callable(func ? new Callable<...>(func) : nullptr) {}];
    [None] is the null pointer. *)
Definition function_fnptr (this : nat) (func : option fnptr) : M unit :=
  q <- match func with
       | Some f => l <- new (Callable_of_fnptr f) ;; ret (Some l)
       | None => ret None
       end ;;
  init this q.

(** [void reset() noexcept
    { if (callable) { delete callable; callable = nullptr; } }] *)
Definition reset (this : nat) : M unit :=
  p <- load this ;;
  match p with
  | Some l => delete_ptr (Some l) ;;; store this None
  | None => ret tt
  end.

(** [~$function() { reset(); }], after which the box is gone. *)
Definition function_destroy (this : nat) : M unit :=
  reset this ;;;
  fun s => Done tt (set_boxes (delete this (boxes s)) s).

(** [$function &operator=($function &&other) noexcept {
      if (this != &other) {
        reset(); callable = other.callable; other.callable = nullptr; }
      return *this; }] *)
Definition assign_move (this other : nat) : M unit :=
  if bool_decide (this ≠ other) then
    reset this ;;;
    p <- load other ;;
    store this p ;;;
    store other None
  else ret tt.

(** [$function &operator=(const $function &other) {
      if (this != &other) {
        reset();
        callable = other.callable ? other.callable->clone() : nullptr; }
      return *this; }] *)
Definition assign_copy (this other : nat) : M unit :=
  if bool_decide (this ≠ other) then
    reset this ;;;
    p <- load other ;;
    q <- match p with
         | Some l => l' <- clone l ;; ret (Some l')
         | None => ret None
         end ;;
    store this q
  else ret tt.

(** [template <typename T> $function &operator=(T $call_o) {
      delete callable;
      callable = new Callable<decay_t<T>>(forward<T>($call_o));
      return *this; }] *)
Definition assign_of (this : nat) (T : invocable) (call_o : carrier T)
  : M unit :=
  p <- load this ;;
  delete_ptr p ;;;
  l <- new (MkCallable T call_o) ;;
  store this (Some l).

(** The assignment from a function pointer:
    [delete callable;
     callable = func ? new Callable<...>(func) : nullptr;
     return *this;] *)
Definition assign_fnptr (this : nat) (func : option fnptr) : M unit :=
  p <- load this ;;
  delete_ptr p ;;;
  q <- match func with
       | Some f => l <- new (Callable_of_fnptr f) ;; ret (Some l)
       | None => ret None
       end ;;
  store this q.

(** [explicit operator bool() const noexcept { return callable != nullptr; }] *)
Definition operator_bool (this : nat) : M bool :=
  p <- load this ;;
  ret (bool_decide (p ≠ None)).

(** [bool operator$question() const noexcept { return callable != nullptr; }] *)
Definition operator_question (this : nat) : M bool :=
  p <- load this ;;
  ret (bool_decide (p ≠ None)).

(** [Rt operator()(Tp... args) {
      if (!callable) { throw "called an unset function pointer"; }
      return callable->invoke(forward<Tp>(args)...); }] *)
Definition operator_call (this : nat) (args : Args) : M Rt :=
  p <- load this ;;
  match p with
  | None => throw EmptyInvocation
  | Some l => invoke l args
  end.

(** ** Clients *)

(** Calling a callable value directly, [c(args...)], as a caller that
    holds [c] itself would. *)
Definition direct_call (T : invocable) (c : carrier T) (args : Args)
    (w : World) : outcome * World :=
  let '(r, _, w') := call_op T c args w in (r, w').

(** What a caller sees of one box invocation. *)
Inductive observed : Type :=
| Got (v : Rt)
| Caught (e : thrown).

(** One more observation in front of those a run has produced. *)
Definition push (o : observed) (r : option (list observed * state))
  : option (list observed * state) :=
  match r with
  | Some (os, s) => Some (o :: os, s)
  | None => None
  end.

(** A caller that invokes the box at [this] once per element of [argss],
    catching whatever is thrown before it goes on. *)
Fixpoint calls (this : nat) (argss : list Args) (s : state)
  : option (list observed * state) :=
  match argss with
  | [] => Some ([], s)
  | args :: rest =>
      match operator_call this args s with
      | Done v s' => push (Got v) (calls this rest s')
      | Throw e s' => push (Caught e) (calls this rest s')
      | Undefined => None
      end
  end.

End Function.

Arguments Returns {Rt Exn} v.
Arguments Raises {Rt Exn} e.
Arguments Build_invocable {Rt Args Exn World} carrier call_op.
Arguments carrier {Rt Args Exn World} i.
Arguments call_op {Rt Args Exn World} i _ _ _.
Arguments MkCallable {Rt Args Exn World} T callable.
Arguments T {Rt Args Exn World} c.
Arguments callable {Rt Args Exn World} c.
Arguments Callable_invoke {Rt Args Exn World} c args w.
Arguments fnptr_invocable {Rt Args Exn World}.
Arguments Callable_of_fnptr {Rt Args Exn World} func.
Arguments MkState {Rt Args Exn World} heap boxes released new_script world.
Arguments heap {Rt Args Exn World} s.
Arguments boxes {Rt Args Exn World} s.
Arguments released {Rt Args Exn World} s.
Arguments new_script {Rt Args Exn World} s.
Arguments world {Rt Args Exn World} s.
Arguments set_heap {Rt Args Exn World} h s.
Arguments set_boxes {Rt Args Exn World} b s.
Arguments set_world {Rt Args Exn World} w s.
Arguments throw_cstr {Exn} msg.
Arguments bad_alloc {Exn}.
Arguments from_callable {Exn} e.
Arguments EmptyInvocation {Exn}.
Arguments Done {Rt Args Exn World A} a s.
Arguments Throw {Rt Args Exn World A} e s.
Arguments Undefined {Rt Args Exn World A}.
Arguments ret {Rt Args Exn World A} a _.
Arguments bind {Rt Args Exn World A B} m k _.
Arguments throw {Rt Args Exn World A} e _.
Arguments new {Rt Args Exn World} c _.
Arguments delete_ptr {Rt Args Exn World} p _.
Arguments load {Rt Args Exn World} this _.
Arguments store {Rt Args Exn World} this p _.
Arguments init {Rt Args Exn World} this p _.
Arguments invoke {Rt Args Exn World} l args _.
Arguments clone {Rt Args Exn World} l _.
Arguments function_default {Rt Args Exn World} this _.
Arguments function_move {Rt Args Exn World} this other _.
Arguments function_copy {Rt Args Exn World} this other _.
Arguments function_of {Rt Args Exn World} this T call_o _.
Arguments function_fnptr {Rt Args Exn World} this func _.
Arguments reset {Rt Args Exn World} this _.
Arguments function_destroy {Rt Args Exn World} this _.
Arguments assign_move {Rt Args Exn World} this other _.
Arguments assign_copy {Rt Args Exn World} this other _.
Arguments assign_of {Rt Args Exn World} this T call_o _.
Arguments assign_fnptr {Rt Args Exn World} this func _.
Arguments operator_bool {Rt Args Exn World} this _.
Arguments operator_question {Rt Args Exn World} this _.
Arguments operator_call {Rt Args Exn World} this args _.
Arguments direct_call {Rt Args Exn World} T c args w.
Arguments Got {Rt Exn} v.
Arguments Caught {Rt Exn} e.
Arguments push {Rt Args Exn World} o r.
Arguments calls {Rt Args Exn World} this argss s.

(** ** Notions used to state the properties *)

Section Notions.

Context {Rt Args Exn World : Type}.

(** The class invariant of one box: the box at [this] is alive, its
    pointer is [p], and [p] is null or the address of a live object. *)
Definition valid_box (s : state Rt Args Exn World) (this : nat)
    (p : option nat) : Prop :=
  boxes s !! this = Some p ∧ ∀ l, p = Some l → is_Some (heap s !! l).

(** The box at [this] owns the live adapter [c], placed at [l]. *)
Definition holds (s : state Rt Args Exn World) (this l : nat)
    (c : Callable Rt Args Exn World) : Prop :=
  boxes s !! this = Some (Some l) ∧ heap s !! l = Some c.

(** What the pointer [p] of a box leads to: nothing for the null pointer,
    the object for a live address; a dangling pointer leads nowhere. *)
Definition content (s : state Rt Args Exn World) (p : option nat)
  : option (option (Callable Rt Args Exn World)) :=
  match p with
  | None => Some None
  | Some l => Some <$> heap s !! l
  end.

(** The next [new] expression will not throw. *)
Definition can_allocate (s : state Rt Args Exn World) : Prop :=
  head (new_script s) ≠ Some true.

(** A callable type whose values carry their own mutable state and
    nothing else: a call neither reads nor writes the world. *)
Definition own_state (T : invocable Rt Args Exn World) : Prop :=
  ∀ c args, ∃ r c', ∀ w, call_op T c args w = (r, c', w).

(** How a caller sees the outcome of the wrapped callable once it has
    crossed the box. *)
Definition as_observed (r : outcome Rt Exn) : observed Rt Exn :=
  match r with
  | Returns v => Got v
  | Raises e => Caught (from_callable e)
  end.

(** What a caller sees of a finished invocation, with the world it
    leaves behind. *)
Definition seen (r : result Rt Args Exn World Rt)
  : option (observed Rt Exn * World) :=
  match r with
  | Done v s => Some (Got v, world s)
  | Throw e s => Some (Caught e, world s)
  | Undefined => None
  end.

(** The state a member function leaves, on either exit. *)
Definition final {A} (r : result Rt Args Exn World A)
  : option (state Rt Args Exn World) :=
  match r with
  | Done _ s => Some s
  | Throw _ s => Some s
  | Undefined => None
  end.

(** What a caller sees of a run of invocations. *)
Definition results (r : option (list (observed Rt Exn)
                                * state Rt Args Exn World))
  : option (list (observed Rt Exn) * World) :=
  match r with
  | Some (os, s) => Some (os, world s)
  | None => None
  end.

(** The strong guarantee for an assignment [op] to the box at [this]:
    when [op] leaves by an exception, the box still has the pointer it
    had, and the object behind it is still the one it was. *)
Definition state_kept_on_failure (op : M Rt Args Exn World unit)
    (this : nat) (s : state Rt Args Exn World) : Prop :=
  ∀ e s', op s = Throw e s' →
    boxes s' !! this = boxes s !! this ∧
    ∀ l, boxes s !! this = Some (Some l) → heap s' !! l = heap s !! l.

(** What an assignment [op] that installs the adapter [c0] in the box at
    [this], which held the object at [l], does in this code: the held
    object is deleted first, whatever comes next; then either the
    allocation succeeds and the box owns [c0], or the allocation fails
    and [op] leaves by that failure. *)
Definition released_then_constructed (op : M Rt Args Exn World unit)
    (this l : nat) (c0 : Callable Rt Args Exn World)
    (s : state Rt Args Exn World) : Prop :=
  (can_allocate s ∧
   ∃ s' l', op s = Done tt s'
     ∧ boxes s' !! this = Some (Some l')
     ∧ heap s' = <[l' := c0]> (delete l (heap s))
     ∧ released s' = l :: released s)
  ∨ (¬ can_allocate s ∧
     ∃ s', op s = Throw bad_alloc s'
       ∧ heap s' = delete l (heap s)
       ∧ released s' = l :: released s).

(** The ownership discipline of the class, over a heap [h] and the boxes
    [b]: a non-null pointer of a box leads to a live object; no object is
    owned by two boxes; every live object is owned by some box. *)
Definition wf_on (h : gmap nat (Callable Rt Args Exn World))
    (b : gmap nat (option nat)) : Prop :=
  (∀ a l, b !! a = Some (Some l) → is_Some (h !! l))
  ∧ (∀ a a' l, b !! a = Some (Some l) → b !! a' = Some (Some l) → a = a')
  ∧ (∀ l, is_Some (h !! l) → ∃ a, b !! a = Some (Some l)).

Definition wf (s : state Rt Args Exn World) : Prop :=
  wf_on (heap s) (boxes s).

(** [op], run from [s], has defined behaviour, and however it leaves
    (normally or by an exception) the ownership discipline holds again. *)
Definition keeps_wf {A} (op : M Rt Args Exn World A)
    (s : state Rt Args Exn World) : Prop :=
  match op s with
  | Done _ s' => wf s'
  | Throw _ s' => wf s'
  | Undefined => False
  end.

(** [op] leaves by [bad_alloc] with the box at [this] still carrying the
    address [l] of an object that is no longer alive: the box still
    converts to true, and invoking, resetting or destroying it is
    undefined behaviour. *)
Definition left_dangling (op : M Rt Args Exn World unit) (this l : nat)
    (s : state Rt Args Exn World) : Prop :=
  ∃ s', op s = Throw bad_alloc s'
    ∧ boxes s' !! this = Some (Some l)
    ∧ heap s' !! l = None
    ∧ operator_bool this s' = Done true s'
    ∧ (∀ args, operator_call this args s' = Undefined)
    ∧ reset this s' = Undefined
    ∧ function_destroy this s' = Undefined.

(** The box at [this] does not own anything yet: it is not alive (its
    constructor is about to run) or it is empty. *)
Definition owns_nothing (s : state Rt Args Exn World) (this : nat) : Prop :=
  boxes s !! this = None ∨ boxes s !! this = Some None.

End Notions.

(** ** Sample callables of signature [int(int)]

    Used to run the member functions on concrete programs.  The world is
    one global integer; exceptions carry a text. *)

Module Samples.

Definition st : Type := state Z Z string Z.

(** [int add_one(int x) { return x + 1; }] *)
Definition add_one : fnptr Z Z string Z :=
  fun x w => (Returns (x + 1)%Z, w).

(** [[n = 0](int x) mutable { return x + ++n; }]: a counter stored by
    value inside the closure. *)
Definition counter : invocable Z Z string Z := {|
  carrier := Z;
  call_op := fun n x w => (Returns (x + (n + 1))%Z, (n + 1)%Z, w)
|}.

(** [[](int x) -> int { throw "boom"; }] *)
Definition failing : invocable Z Z string Z := {|
  carrier := unit;
  call_op := fun u _ w => (Raises "boom"%string, u, w)
|}.

(** [[&g](int x) { return x + ++g; }]: the counter is the global. *)
Definition shared_counter : invocable Z Z string Z := {|
  carrier := unit;
  call_op := fun u x w => (Returns (x + (w + 1))%Z, u, (w + 1)%Z)
|}.

(** No box, no heap object, every allocation succeeds. *)
Definition start : st := MkState ∅ ∅ [] [] 0%Z.

(** One box at address [1] that owns a counter at heap address [0]. *)
Definition one_box : st :=
  MkState {[ 0 := MkCallable counter 0%Z ]} {[ 1 := Some 0 ]} [] [] 0%Z.

(** The same, with the next allocation bound to fail. *)
Definition one_box_oom : st :=
  MkState {[ 0 := MkCallable counter 0%Z ]} {[ 1 := Some 0 ]} []
          [true] 0%Z.

(** Box [1] owns a counter, box [2] is empty. *)
Definition two_boxes : st :=
  MkState {[ 0 := MkCallable counter 0%Z ]}
          {[ 1 := Some 0; 2 := None ]} [] [] 0%Z.

(** Box [1] owns a counter, box [2] owns a failing callable. *)
Definition two_full_boxes : st :=
  MkState {[ 0 := MkCallable counter 0%Z; 5 := MkCallable failing tt ]}
          {[ 1 := Some 0; 2 := Some 5 ]} [] [] 0%Z.

(** One box at address [1] that owns a closure counting in the global. *)
Definition one_shared_box : st :=
  MkState {[ 0 := MkCallable shared_counter tt ]} {[ 1 := Some 0 ]} []
          [] 0%Z.

(** [Box b2 = b1;] then [b1(0)] three times, then [b2(0)] twice: what the
    two series of calls return. *)
Definition copy_then_count (s : st)
  : option (list (observed Z string) * list (observed Z string)) :=
  match function_copy 2 1 s with
  | Done _ s1 =>
      match calls 1 [0; 0; 0]%Z s1 with
      | Some (os1, s2) =>
          match calls 2 [0; 0]%Z s2 with
          | Some (os2, _) => Some (os1, os2)
          | None => None
          end
      | None => None
      end
  | _ => None
  end.

(** [Box b; bool(b); b(5)]: the boolean, then what the call shows. *)
Definition default_then_call
  : option (bool * option (observed Z string * Z)) :=
  match function_default 1 start with
  | Done _ s1 =>
      match operator_bool 1 s1 with
      | Done b s2 => Some (b, seen (operator_call 1 5%Z s2))
      | _ => None
      end
  | _ => None
  end.

(** An assignment that runs out of memory, and then the destructor. *)
Definition failed_assign_then_destroy : option (result Z Z string Z unit) :=
  match assign_of 1 counter 7%Z one_box_oom with
  | Throw _ s' => Some (function_destroy 1 s')
  | _ => None
  end.

End Samples.

(** * [core/include/print.h]: the f-string engine

    [stringf(s, t...)] first renders every argument with [to_string] into
    the array [EAS], then substitutes the renderings, in order, for the
    placeholders of [s].  Which branch of [to_string] renders a value is
    fixed by its type; the embedding starts from the renderings [EAS].
    [string] is the byte string of the C++ library, here a [string] of
    8-bit characters; positions are [usize] values, which the sizes of
    strings never make wrap. *)

(** The literal ["\\{\\}"] of the source: a backslash, an opening brace,
    a backslash, a closing brace. *)
Definition placeholder : string := "\{\}".

(** The text of the [runtime_error] thrown on a missing placeholder. *)
Definition mismatch_message : string :=
  "error: [f-stirng engine]: format argument count mismatch, this should not happen, please open a issue on github".

(** [stringf] returns the formatted string or throws [runtime_error]. *)
Inductive formatted : Type :=
| Formatted (s : string)
| RuntimeError (what : string).

(** [s.find(needle, pos)]: the position of the first occurrence of
    [needle] in [s] that starts at [pos] or later; [None] is [npos]. *)
Definition string_find (needle : string) (pos : nat) (s : string)
  : option nat :=
  String.index pos needle s.

(** [s.replace(pos, len, str)]: the [len] characters from [pos] on give
    way to [str]. *)
Definition string_replace (pos len : nat) (str s : string) : string :=
  String.substring 0 pos s
  +:+ str
  +:+ String.substring (pos + len) (String.length s - (pos + len)) s.

(** [for (auto &&arg : EAS) {
      pos = s.find("\\{\\}", pos);
      if (pos == string::npos) throw runtime_error(...);
      s.replace(pos, 4, arg);
      pos += arg.size(); }
    return s;] *)
Fixpoint stringf_loop (EAS : list string) (s : string) (pos : nat)
  : formatted :=
  match EAS with
  | [] => Formatted s
  | arg :: rest =>
      match string_find placeholder pos s with
      | None => RuntimeError mismatch_message
      | Some found =>
          stringf_loop rest (string_replace found 4 arg s)
                       (found + String.length arg)
      end
  end.

(** [constexpr string stringf(string s, Ty &&...t)], with [usize pos = 0]. *)
Definition stringf (s : string) (EAS : list string) : formatted :=
  stringf_loop EAS s 0.

(** ** Templates, to state what the engine computes *)

(** A piece of literal text in which no placeholder can start: it has no
    backslash. *)
Fixpoint plain (s : string) : bool :=
  match s with
  | EmptyString => true
  | String c s' => negb (Ascii.eqb c "\"%char) && plain s'
  end.

(** The format string with the pieces [p0], [ps] around its placeholders:
    [p0 \{\} p1 \{\} ... pn]. *)
Fixpoint template (p0 : string) (ps : list string) : string :=
  match ps with
  | [] => p0
  | p :: ps' => p0 +:+ placeholder +:+ template p ps'
  end.

(** The same with the leading placeholders filled by [args], one each, in
    order; placeholders beyond the arguments stay as they are. *)
Fixpoint filled (p0 : string) (ps : list string) (args : list string)
  : string :=
  match ps, args with
  | p :: ps', arg :: args' => p0 +:+ arg +:+ filled p ps' args'
  | _, _ => template p0 ps
  end.

(** The total size of the renderings. *)
Definition total_size (EAS : list string) : nat :=
  foldr (λ arg n, String.length arg + n) 0 EAS.


(** * [core/include/print.h]: [endl] and [print] *)

(** The line feed that the source writes as ["\n"], and the byte that
    ends a C string. *)
Definition newline : string := String "010" EmptyString.
Definition NUL : ascii := "000"%char.

(** [class endl { ... private: string end_l = "\n"; };] *)
Record endl : Type := { end_l : string }.

(** [endl() = default;] *)
Definition endl_default : endl := {| end_l := newline |}.

(** [explicit endl(string end) : end_l(std::ref::move(end)) {}] *)
Definition endl_of_string (end_ : string) : endl := {| end_l := end_ |}.

(** What a [const char *] denotes: the bytes up to the first [NUL]. *)
Fixpoint c_str (s : string) : string :=
  match s with
  | EmptyString => EmptyString
  | String c s' => if Ascii.eqb c NUL then EmptyString else String c (c_str s')
  end.

(** [explicit endl(const char *end)
      : end_l((end != nullptr) ? end : "\n") {}]; [None] is [nullptr]. *)
Definition endl_of_cstr (end_ : option string) : endl :=
  {| end_l := match end_ with Some e => c_str e | None => newline end |}.

(** [explicit endl(char end) : end_l(1, end) {}] *)
Definition endl_of_char (end_ : ascii) : endl :=
  {| end_l := String end_ EmptyString |}.

(** An argument of [print]: an [endl] object, or a value of another type,
    given by the string [to_string] renders it to. *)
Inductive printable : Type :=
| Rendered (text : string)
| Terminator (e : endl).

(** [to_string(t)]: an [endl] has no [to_string] member and is rendered
    by its [operator<<], which writes [end_l]. *)
Definition to_string (t : printable) : string :=
  match t with
  | Rendered text => text
  | Terminator e => end_l e
  end.

(** The type test at the end of [print]: is the last argument an [endl]? *)
Definition ends_with_endl (t : list printable) : bool :=
  match last t with
  | Some (Terminator _) => true
  | _ => false
  end.

(** [((printf("%s", std::to_string(std::forward<Args>(t)).c_str())), ...);]:
    the bytes the fold writes. *)
Fixpoint print_each (t : list printable) : string :=
  match t with
  | [] => EmptyString
  | a :: rest => c_str (to_string a) +:+ print_each rest
  end.

(** [print(t...)]: the bytes written to the standard output.
    [if constexpr (sizeof...(t) == 0) { printf("\n"); return; }
     ((printf("%s", ...)), ...);
     if constexpr (the last argument is not an endl) { printf("\n"); }] *)
Definition print (t : list printable) : string :=
  match t with
  | [] => newline
  | _ => print_each t +:+ (if ends_with_endl t then EmptyString else newline)
  end.

(** The bytes of a string. *)
Fixpoint bytes (s : string) : list ascii :=
  match s with
  | EmptyString => []
  | String c s' => c :: bytes s'
  end.

(** ** Properties of the box *)

Section Properties.

Context {Rt Args Exn World : Type}.

Local Abbreviation State := (state Rt Args Exn World).
Local Abbreviation Invocable := (invocable Rt Args Exn World).

Implicit Types (s : State) (this target other l : nat) (p q : option nat).
Implicit Types (args : Args) (U : Invocable).

(** Unfolds the monadic plumbing of a member function. *)
Local Ltac run :=
  unfold function_default, function_move, function_copy, function_of,
    function_fnptr, reset, assign_move, assign_copy, assign_of,
    assign_fnptr, operator_bool, operator_question, operator_call,
    clone, invoke, new, delete_ptr, load, store, init, bind, ret, throw,
    set_boxes, set_heap, set_world; simpl.

(** *** Stepping lemmas for the primitives *)

Lemma bind_done {A B} (m : M Rt Args Exn World A)
    (k : A → M Rt Args Exn World B) s a s' :
  m s = Done a s' → bind m k s = k a s'.
Proof. unfold bind. by intros ->. Qed.

Lemma bind_throw {A B} (m : M Rt Args Exn World A)
    (k : A → M Rt Args Exn World B) s e s' :
  m s = Throw e s' → bind m k s = Throw e s'.
Proof. unfold bind. by intros ->. Qed.

Lemma new_ok (c : Callable Rt Args Exn World) s :
  can_allocate s →
  new c s =
    Done (fresh (dom (heap s)))
      (MkState (<[fresh (dom (heap s)) := c]> (heap s)) (boxes s)
               (released s) (tail (new_script s)) (world s)).
Proof.
  unfold can_allocate, new. intros Hok.
  destruct (new_script s) as [|[] rest]; simpl in *; congruence.
Qed.

Lemma new_fails (c : Callable Rt Args Exn World) s :
  ¬ can_allocate s →
  new c s =
    Throw bad_alloc
      (MkState (heap s) (boxes s) (released s) (tail (new_script s))
               (world s)).
Proof.
  unfold can_allocate, new. intros Hno.
  destruct (new_script s) as [|[] rest]; simpl in *;
    [exfalso; apply Hno; discriminate | reflexivity
    | exfalso; apply Hno; discriminate].
Qed.

Lemma fresh_not_live s : heap s !! fresh (dom (heap s)) = None.
Proof. apply not_elem_of_dom, is_fresh. Qed.

Lemma operator_call_empty s this args :
  boxes s !! this = Some None →
  operator_call this args s = Throw EmptyInvocation s.
Proof. intros Hb. run. by rewrite Hb. Qed.

Lemma operator_call_holds s this l c args :
  holds s this l c →
  operator_call this args s =
    let '(r, c', w') := Callable_invoke c args (world s) in
    let s' := set_world w' (set_heap (<[l := c']> (heap s)) s) in
    match r with
    | Returns v => Done v s'
    | Raises e => Throw (from_callable e) s'
    end.
Proof. intros [Hb Hl]. run. by rewrite Hb, Hl. Qed.

Lemma operator_bool_load s this p :
  boxes s !! this = Some p →
  operator_bool this s = Done (bool_decide (p ≠ None)) s.
Proof. intros Hb. run. by rewrite Hb. Qed.

(** *** Construction from a callable, then a call *)

(** C1. For every callable [c] usable with the signature and every
    argument list, a box built from [c] and then invoked shows its
    caller exactly what calling [c] directly shows: the same returned
    value or the same failure, and the same effect on the world.  The
    construction itself needs its one allocation to succeed. *)
Theorem box_call_is_direct_call U (c : carrier U) args this s :
  can_allocate s →
  seen (bind (function_of this U c) (λ _, operator_call this args) s)
  = Some (as_observed (direct_call U c args (world s)).1,
          (direct_call U c args (world s)).2)
  ∧ ∀ f : fnptr Rt Args Exn World,
      seen (bind (function_fnptr this (Some f))
                 (λ _, operator_call this args) s)
      = Some (as_observed (direct_call fnptr_invocable f args (world s)).1,
              (direct_call fnptr_invocable f args (world s)).2).
Proof.
  intros Hok.
  assert (∀ c0 : Callable Rt Args Exn World,
    seen (bind (bind (new c0) (λ l, init this (Some l)))
               (λ _, operator_call this args) s)
    = Some (as_observed
              (direct_call (T c0) (callable c0) args (world s)).1,
            (direct_call (T c0) (callable c0) args (world s)).2)) as Hgen.
  { intros c0. unfold bind at 1, bind.
    rewrite (new_ok _ _ Hok). unfold init. simpl.
    erewrite operator_call_holds; last first.
    { split; simpl; apply lookup_insert_eq. }
    unfold Callable_invoke, direct_call. simpl.
    destruct (call_op (T c0) (callable c0) args (world s))
      as [[[v|e] t'] w']; reflexivity. }
  split.
  - apply (Hgen (MkCallable U c)).
  - intros f. etrans; [|exact (Hgen (Callable_of_fnptr f))].
    unfold function_fnptr, bind, ret.
    by destruct (new (Callable_of_fnptr f) s).
Qed.

(** *** Invocation: the empty box, and forwarding *)

(** C2. Invoking a valid box fails with EmptyInvocation exactly when the
    box is empty; the empty box fails at once, having run nothing and
    changed nothing; a non-empty box forwards to the stored callable,
    whose returned value or failure reaches the caller as it is. *)
Theorem operator_call_failure s this p args :
  valid_box s this p →
  ((∃ s', operator_call this args s = Throw EmptyInvocation s') ↔ p = None)
  ∧ (p = None → operator_call this args s = Throw EmptyInvocation s)
  ∧ (∀ l c, p = Some l → heap s !! l = Some c →
       operator_call this args s =
         let '(r, c', w') := Callable_invoke c args (world s) in
         let s' := set_world w' (set_heap (<[l := c']> (heap s)) s) in
         match r with
         | Returns v => Done v s'
         | Raises e => Throw (from_callable e) s'
         end).
Proof.
  intros [Hb Hlive]. split; [|split].
  - split.
    + intros [s' Hc]. destruct p as [l|]; [|done].
      destruct (Hlive l eq_refl) as [c Hl].
      rewrite (operator_call_holds s this l c) in Hc by done.
      destruct (Callable_invoke c args (world s)) as [[[v|e] c'] w'];
        simpl in Hc; discriminate.
    + intros ->. eexists. by apply operator_call_empty.
  - intros ->. by apply operator_call_empty.
  - intros l c -> Hl. by apply operator_call_holds.
Qed.

(** *** Self-assignment *)

(** C6. Assigning a box to itself, by copy or by move, does nothing: the
    whole state, the box's content and the log of released objects
    included, is what it was. *)
Theorem self_assignment_noop s this :
  assign_copy this this s = Done tt s ∧ assign_move this this s = Done tt s.
Proof.
  unfold assign_copy, assign_move.
  rewrite bool_decide_eq_false_2 by (intros Hne; by apply Hne).
  by split.
Qed.

(** *** Construction from a function pointer *)

(** C8. Building a box from a function pointer: a null pointer gives an
    empty box without allocating anything; a non-null pointer [f] gives a
    box that owns a fresh adapter around [f], unless the allocation fails,
    in which case the constructor leaves by that allocation failure and no
    box comes to exist.  There is no other way out. *)
Theorem function_fnptr_spec this (func : option (fnptr Rt Args Exn World)) s :
  match func with
  | None =>
      ∃ s', function_fnptr this None s = Done tt s'
        ∧ boxes s' !! this = Some None
        ∧ operator_bool this s' = Done false s'
        ∧ heap s' = heap s ∧ new_script s' = new_script s
  | Some f =>
      (can_allocate s ∧
       ∃ s' l, function_fnptr this (Some f) s = Done tt s'
         ∧ holds s' this l (Callable_of_fnptr f)
         ∧ heap s !! l = None
         ∧ operator_bool this s' = Done true s')
      ∨ (¬ can_allocate s ∧
         ∃ s', function_fnptr this (Some f) s = Throw bad_alloc s'
           ∧ boxes s' = boxes s ∧ heap s' = heap s)
  end.
Proof.
  destruct func as [f|].
  - destruct (decide (head (new_script s) = Some true)) as [Hoom|Hok].
    + right. split; [by intros Hc; apply Hc|].
      unfold function_fnptr, bind.
      rewrite new_fails by (by intros Hc; apply Hc). by eexists.
    + left. split; [done|].
      unfold function_fnptr, bind. rewrite new_ok by done.
      unfold ret, init. simpl. do 2 eexists. split; [reflexivity|].
      split; [|split].
      * split; simpl; apply lookup_insert_eq.
      * apply fresh_not_live.
      * erewrite operator_bool_load by (simpl; apply lookup_insert_eq).
        reflexivity.
  - unfold function_fnptr, bind, ret, init. simpl. eexists.
    split; [reflexivity|]. split; [simpl; apply lookup_insert_eq|].
    split; [|done].
    erewrite operator_bool_load by (simpl; apply lookup_insert_eq).
    reflexivity.
Qed.

(** *** Release *)

Lemma delete_live s l c :
  heap s !! l = Some c →
  delete_ptr (Some l) s =
    Done tt (MkState (delete l (heap s)) (boxes s) (l :: released s)
                     (new_script s) (world s)).
Proof. intros Hl. unfold delete_ptr. by rewrite Hl. Qed.

Lemma reset_holds s this l c :
  holds s this l c →
  reset this s =
    Done tt (MkState (delete l (heap s)) (<[this := None]> (boxes s))
                     (l :: released s) (new_script s) (world s)).
Proof.
  intros [Hb Hl]. unfold reset, bind, load. rewrite Hb.
  rewrite (delete_live _ _ _ Hl). unfold store. simpl. by rewrite Hb.
Qed.

Lemma reset_empty s this :
  boxes s !! this = Some None → reset this s = Done tt s.
Proof. intros Hb. unfold reset, bind, load. by rewrite Hb. Qed.

(** C7. [reset()] on a valid box always completes; afterwards the box is
    empty, its boolean conversion is false and invoking it fails with
    EmptyInvocation; the object it owned, if any, has been deleted, and
    deleted once: the log of released objects grew by that one entry. *)
Theorem reset_spec s this p :
  valid_box s this p →
  ∃ s', reset this s = Done tt s'
    ∧ boxes s' !! this = Some None
    ∧ operator_bool this s' = Done false s'
    ∧ (∀ args, operator_call this args s' = Throw EmptyInvocation s')
    ∧ match p with
      | Some l =>
          heap s' = delete l (heap s) ∧ released s' = l :: released s
      | None => s' = s
      end.
Proof.
  intros [Hb Hlive]. destruct p as [l|].
  - destruct (Hlive l eq_refl) as [c Hl].
    rewrite (reset_holds s this l c) by done. eexists. split; [done|].
    assert (∀ b h r n w,
      boxes (@MkState Rt Args Exn World h (<[this := None]> b) r n w)
        !! this = Some None) as Hnone by (intros; apply lookup_insert_eq).
    split; [apply Hnone|]. split; [|split; [|done]].
    + by erewrite operator_bool_load by apply Hnone.
    + intros args. apply operator_call_empty, Hnone.
  - rewrite reset_empty by done. exists s. split; [done|].
    split; [done|]. split; [|split; [|done]].
    + by erewrite operator_bool_load by done.
    + intros args. by apply operator_call_empty.
Qed.

(** *** Assignment of a null function pointer *)

(** C9. Assigning the null function pointer to a valid box always
    completes; it deletes what the box owned (once) and leaves the box
    empty, so that its boolean conversion is false. *)
Theorem assign_null_fnptr_spec s this p :
  valid_box s this p →
  ∃ s', assign_fnptr this None s = Done tt s'
    ∧ boxes s' !! this = Some None
    ∧ operator_bool this s' = Done false s'
    ∧ match p with
      | Some l =>
          heap s' = delete l (heap s) ∧ released s' = l :: released s
      | None => heap s' = heap s ∧ released s' = released s
      end.
Proof.
  intros [Hb Hlive]. unfold assign_fnptr, bind, load. rewrite Hb.
  destruct p as [l|].
  - destruct (Hlive l eq_refl) as [c Hl]. rewrite (delete_live _ _ _ Hl).
    unfold ret, store. simpl. rewrite Hb. eexists. split; [done|].
    split; [simpl; apply lookup_insert_eq|]. split; [|done].
    by erewrite operator_bool_load by (simpl; apply lookup_insert_eq).
  - unfold delete_ptr, ret, store. simpl. rewrite Hb. eexists.
    split; [done|]. split; [simpl; apply lookup_insert_eq|].
    split; [|done].
    by erewrite operator_bool_load by (simpl; apply lookup_insert_eq).
Qed.

(** *** Invocation leaves the box alone *)

(** C10. Invoking a box that holds an adapter, whether the callable
    returns or raises, leaves every box's pointer as it was: the box still
    points to the same live adapter, of the same wrapped type, no object
    was created or deleted, and the emptiness test answers as before. *)
Theorem operator_call_keeps_box s this l c args :
  holds s this l c →
  ∃ s', final (operator_call this args s) = Some s'
    ∧ boxes s' = boxes s
    ∧ (∃ c', holds s' this l c' ∧ T c' = T c)
    ∧ dom (heap s') = dom (heap s)
    ∧ released s' = released s
    ∧ operator_bool this s = Done true s
    ∧ operator_bool this s' = Done true s'.
Proof.
  intros Hh. rewrite (operator_call_holds s this l c) by done.
  destruct Hh as [Hb Hl]. unfold Callable_invoke.
  destruct (call_op (T c) (callable c) args (world s)) as [[r t'] w'].
  exists (set_world w'
            (set_heap (<[l := MkCallable (T c) t']> (heap s)) s)).
  split; [by destruct r|]. split; [done|]. split; [|split; [|split]].
  - eexists. split; [split; simpl; [done|apply lookup_insert_eq]|done].
  - simpl. rewrite dom_insert_L.
    apply subseteq_union_1_L, singleton_subseteq_l.
    eapply elem_of_dom_2, Hl.
  - done.
  - split; by erewrite operator_bool_load by done.
Qed.

(** *** Assignment of a new callable: release, then construct *)

(** C3, as the code has it.  Assigning a callable or a non-null function
    pointer to a box that holds content deletes the held object first and
    only then allocates the replacement.  When the allocation succeeds the
    box owns the new adapter and the old object has been released once.
    When it fails the assignment leaves by the allocation failure and the
    old object is already gone: the prior content is not kept. *)
Theorem assign_releases_then_constructs s this l c :
  holds s this l c →
  (∀ U (call_o : carrier U),
     released_then_constructed (assign_of this U call_o) this l
       (MkCallable U call_o) s)
  ∧ (∀ f : fnptr Rt Args Exn World,
     released_then_constructed (assign_fnptr this (Some f)) this l
       (Callable_of_fnptr f) s).
Proof.
  intros [Hb Hl].
  assert (∀ c0 : Callable Rt Args Exn World,
    released_then_constructed
      (bind (load this) (λ p, bind (delete_ptr p) (λ _,
         bind (new c0) (λ l0, store this (Some l0)))))
      this l c0 s) as Hgen.
  { intros c0. unfold released_then_constructed.
    destruct (decide (head (new_script s) = Some true)) as [Hoom|Hok].
    - right. split; [by intros Hc; apply Hc|].
      erewrite bind_done by (unfold load; by rewrite Hb).
      erewrite bind_done by apply (delete_live _ _ _ Hl).
      erewrite bind_throw;
        [|by apply new_fails; intros Hc; apply Hc]. by eexists.
    - left. split; [done|].
      erewrite bind_done by (unfold load; by rewrite Hb).
      erewrite bind_done by apply (delete_live _ _ _ Hl).
      erewrite bind_done by by apply new_ok.
      unfold store. simpl. rewrite Hb. do 2 eexists.
      split; [reflexivity|]. split; [simpl; apply lookup_insert_eq|done]. }
  split.
  - intros U call_o. apply (Hgen (MkCallable U call_o)).
  - intros f. unfold released_then_constructed.
    assert (assign_fnptr this (Some f) s
            = bind (load this) (λ p, bind (delete_ptr p) (λ _,
                bind (new (Callable_of_fnptr f))
                     (λ l0, store this (Some l0)))) s) as ->; [|apply Hgen].
    unfold assign_fnptr, bind, ret.
    destruct (load this s) as [p0 s0| |]; [|done..].
    destruct (delete_ptr p0 s0) as [[] s1| |]; [|done..].
    by destruct (new (Callable_of_fnptr f) s1).
Qed.

(** *** Runs of invocations *)

Lemma results_push (o : observed Rt Exn)
    (r : option (list (observed Rt Exn) * State)) :
  results (push o r) =
    match results r with
    | Some (os, w) => Some (o :: os, w)
    | None => None
    end.
Proof. by destruct r as [[os s']|]. Qed.

(** Two boxes whose pointers lead to equal content, in states with the
    same world, show the same results to their callers. *)
Lemma calls_agree argss : ∀ s1 s2 a b pa pb,
  boxes s1 !! a = Some pa → boxes s2 !! b = Some pb →
  content s1 pa = content s2 pb →
  world s1 = world s2 →
  results (calls a argss s1) = results (calls b argss s2).
Proof.
  induction argss as [|args rest IH]; intros s1 s2 a b pa pb Ha Hb Hc Hw.
  - simpl. by rewrite Hw.
  - simpl. unfold operator_call, bind, load. rewrite Ha, Hb.
    destruct pa as [la|], pb as [lb|]; simpl in Hc.
    + unfold invoke.
      destruct (heap s1 !! la) as [c1|] eqn:H1,
               (heap s2 !! lb) as [c2|] eqn:H2; simpl in Hc; try done.
      assert (c1 = c2) as <- by congruence. rewrite <- Hw.
      destruct (Callable_invoke c1 args (world s1)) as [[r c'] w'].
      assert (results (calls a rest
                (set_world w' (set_heap (<[la := c']> (heap s1)) s1)))
              = results (calls b rest
                (set_world w' (set_heap (<[lb := c']> (heap s2)) s2))))
        as Hrest.
      { apply (IH _ _ a b (Some la) (Some lb)); simpl; try done.
        by rewrite !lookup_insert_eq. }
      destruct r; rewrite !results_push; by rewrite Hrest.
    + destruct (heap s1 !! la); done.
    + destruct (heap s2 !! lb); done.
    + unfold throw. rewrite !results_push.
      by rewrite (IH s1 s2 a b None None).
Qed.

(** A run on a box whose callable keeps to its own state completes, and
    touches nothing but the adapter the box owns. *)
Lemma calls_own_state argss : ∀ s a l c,
  holds s a l c → own_state (T c) →
  ∃ os s', calls a argss s = Some (os, s')
    ∧ boxes s' = boxes s ∧ world s' = world s
    ∧ (∀ l', l' ≠ l → heap s' !! l' = heap s !! l')
    ∧ ∃ c', heap s' !! l = Some c' ∧ T c' = T c.
Proof.
  induction argss as [|args rest IH]; intros s a l c Hh Hown.
  - exists [], s. destruct Hh as [_ Hl]. simpl. eauto 10.
  - simpl. rewrite (operator_call_holds s a l c) by done.
    unfold Callable_invoke.
    destruct (Hown (callable c) args) as (r & t' & Hcall).
    rewrite Hcall.
    destruct (IH (set_world (world s)
                   (set_heap (<[l := MkCallable (T c) t']> (heap s)) s))
                 a l (MkCallable (T c) t'))
      as (os & s' & Hrun & Hbx & Hw & Hframe & c' & Hc' & HT).
    { destruct Hh as [Hb _]. split; simpl; [done|apply lookup_insert_eq]. }
    { done. }
    simpl in Hbx, Hw, Hframe.
    assert (∀ l', l' ≠ l → heap s' !! l' = heap s !! l') as Hframe'.
    { intros l' Hne. rewrite Hframe by done. by apply lookup_insert_ne. }
    destruct r as [v|e]; rewrite Hrun; simpl; eauto 12.
Qed.

(** *** Move *)

(** C4. Moving from a box [other] into a different box, by move
    construction (of a new box [this]) or by move assignment (to a valid
    box [target] that shares nothing with [other]), always completes.
    Afterwards [other] is empty (its boolean conversion is false), the
    target has the pointer [other] had, so it is empty exactly when
    [other] was, and a caller of the target sees the results a caller of
    [other] would have seen before the move.  (Move assignment first
    releases what the target held.) *)
Theorem move_transfers s this target other p q :
  this ≠ other → target ≠ other →
  boxes s !! other = Some p →
  valid_box s target q → (∀ l, q = Some l → p ≠ Some l) →
  (∃ s1, function_move this other s = Done tt s1
     ∧ boxes s1 !! other = Some None
     ∧ operator_bool other s1 = Done false s1
     ∧ boxes s1 !! this = Some p
     ∧ operator_bool this s1 = Done (bool_decide (p ≠ None)) s1
     ∧ operator_bool other s = Done (bool_decide (p ≠ None)) s
     ∧ heap s1 = heap s ∧ released s1 = released s
     ∧ ∀ argss, results (calls this argss s1) = results (calls other argss s))
  ∧ (∃ s1, assign_move target other s = Done tt s1
       ∧ boxes s1 !! other = Some None
       ∧ operator_bool other s1 = Done false s1
       ∧ boxes s1 !! target = Some p
       ∧ operator_bool target s1 = Done (bool_decide (p ≠ None)) s1
       ∧ operator_bool other s = Done (bool_decide (p ≠ None)) s
       ∧ content s1 p = content s p
       ∧ ∀ argss,
           results (calls target argss s1) = results (calls other argss s)).
Proof.
  intros Hne Hne' Ho [Hq Hlive] Hunaliased. split.
  - unfold function_move.
    erewrite bind_done by (unfold load; by rewrite Ho).
    erewrite bind_done by reflexivity.
    unfold store. simpl. rewrite lookup_insert_ne, Ho by done.
    eexists. split; [reflexivity|].
    assert (<[other := None]> (<[this := p]> (boxes s)) !! other
            = Some None) as Hother by apply lookup_insert_eq.
    assert (<[other := None]> (<[this := p]> (boxes s)) !! this
            = Some p) as Hthis.
    { rewrite lookup_insert_ne by done. apply lookup_insert_eq. }
    split; [done|].
    split; [by erewrite operator_bool_load by apply Hother|].
    split; [done|].
    split; [by erewrite operator_bool_load by apply Hthis|].
    split; [by erewrite operator_bool_load by apply Ho|].
    split; [done|]. split; [done|].
    intros argss. by apply (calls_agree argss _ _ _ _ p p).
  - unfold assign_move.
    rewrite bool_decide_eq_true_2 by done.
    assert (∃ s0, reset target s = Done tt s0
              ∧ boxes s0 !! target = Some None
              ∧ boxes s0 !! other = Some p
              ∧ content s0 p = content s p
              ∧ world s0 = world s) as (s0 & Hreset & Hthis0 & Ho0 & Hc0 & Hw0).
    { destruct q as [l|].
      - destruct (Hlive l eq_refl) as [c Hl].
        rewrite (reset_holds s target l c) by done. eexists.
        split; [done|]. simpl. split; [apply lookup_insert_eq|].
        split; [by rewrite lookup_insert_ne|]. split; [|done].
        destruct p as [lp|]; [|done]. simpl.
        rewrite lookup_delete_ne; [done|].
        intros ->. by apply (Hunaliased lp).
      - rewrite reset_empty by done. by exists s. }
    erewrite bind_done by apply Hreset.
    erewrite bind_done by (unfold load; by rewrite Ho0).
    unfold bind, store. rewrite Hthis0. simpl.
    rewrite lookup_insert_ne, Ho0 by done.
    eexists. split; [reflexivity|].
    assert (<[other := None]> (<[target := p]> (boxes s0)) !! other
            = Some None) as Hother by apply lookup_insert_eq.
    assert (<[other := None]> (<[target := p]> (boxes s0)) !! target
            = Some p) as Hthis.
    { rewrite lookup_insert_ne by done. apply lookup_insert_eq. }
    split; [done|].
    split; [by erewrite operator_bool_load by apply Hother|].
    split; [done|].
    split; [by erewrite operator_bool_load by apply Hthis|].
    split; [by erewrite operator_bool_load by apply Ho|].
    split; [by destruct p|].
    intros argss. by apply (calls_agree argss _ _ _ _ p p).
Qed.

(** *** Copy *)

Lemma Callable_eta (c : Callable Rt Args Exn World) :
  MkCallable (T c) (callable c) = c.
Proof. by destruct c. Qed.

(** Running one box whose callable keeps to its own state leaves the
    results of another box, with another adapter, as they were. *)
Lemma calls_frame s a b la lb ca cb xs ys :
  holds s a la ca → holds s b lb cb → la ≠ lb → own_state (T ca) →
  ∃ os s', calls a xs s = Some (os, s')
    ∧ results (calls b ys s') = results (calls b ys s).
Proof.
  intros Ha [Hb Hlb] Hne Hown.
  destruct (calls_own_state xs s a la ca Ha Hown)
    as (os & s' & Hrun & Hbx & Hw & Hframe & _).
  exists os, s'. split; [done|].
  apply (calls_agree ys s' s b b (Some lb) (Some lb)); try done.
  - by rewrite Hbx.
  - simpl. by rewrite Hframe.
Qed.

(** C5. Copy-constructing [this] from a valid box [other] (with the one
    allocation a non-empty source needs succeeding) completes; the copy is
    empty exactly when the source is; for a non-empty source the copy owns
    a fresh adapter, at another address, holding a copy of the wrapped
    value as it was at that moment; and when the wrapped type keeps its
    mutable state in the value itself, invoking the copy any number of
    times leaves the results of later invocations of the original as they
    would have been, and the other way round. *)
Theorem copy_is_independent s this other p :
  this ≠ other → valid_box s other p → (p ≠ None → can_allocate s) →
  ∃ s1 q, function_copy this other s = Done tt s1
    ∧ boxes s1 !! this = Some q ∧ boxes s1 !! other = Some p
    ∧ (q = None ↔ p = None)
    ∧ operator_bool this s1 = Done (bool_decide (p ≠ None)) s1
    ∧ operator_bool other s = Done (bool_decide (p ≠ None)) s
    ∧ ∀ l c, p = Some l → heap s !! l = Some c →
        (∃ l', q = Some l' ∧ l' ≠ l
           ∧ heap s1 !! l' = Some c ∧ heap s1 !! l = Some c)
        ∧ (own_state (T c) → ∀ xs ys,
            (∃ os s2, calls this xs s1 = Some (os, s2)
               ∧ results (calls other ys s2) = results (calls other ys s1))
            ∧ (∃ os s2, calls other ys s1 = Some (os, s2)
               ∧ results (calls this xs s2) = results (calls this xs s1))).
Proof.
  intros Hne [Ho Hlive] Halloc. unfold function_copy.
  erewrite bind_done by (unfold load; by rewrite Ho).
  destruct p as [l|].
  - destruct (Hlive l eq_refl) as [c Hl].
    assert (can_allocate s) as Hok by by apply Halloc.
    set (l' := fresh (dom (heap s))).
    assert (l' ≠ l) as Hfresh.
    { intros Heq. pose proof (fresh_not_live s) as Hnone.
      fold l' in Hnone. rewrite Heq in Hnone. congruence. }
    erewrite bind_done; last first.
    { erewrite bind_done; [reflexivity|].
      unfold clone. rewrite Hl, Callable_eta. by apply new_ok. }
    unfold init. fold l'. simpl.
    eexists _, (Some l'). split; [reflexivity|]. simpl.
    split; [apply lookup_insert_eq|].
    split; [by rewrite lookup_insert_ne|].
    split; [done|].
    split; [by erewrite operator_bool_load by (simpl; apply lookup_insert_eq)|].
    split; [by erewrite operator_bool_load by done|].
    intros l0 c0 [= <-] Hl0. assert (c0 = c) as -> by congruence.
    assert (<[l' := c]> (heap s) !! l' = Some c) as Hcopy
      by apply lookup_insert_eq.
    assert (<[l' := c]> (heap s) !! l = Some c) as Horig
      by by rewrite lookup_insert_ne.
    split; [by exists l'|].
    intros Hown xs ys. split.
    + eapply (calls_frame _ this other l' l c c); try done.
      * split; simpl; [apply lookup_insert_eq|done].
      * split; simpl; [by rewrite lookup_insert_ne|done].
    + eapply (calls_frame _ other this l l' c c); try done.
      * split; simpl; [by rewrite lookup_insert_ne|done].
      * split; simpl; [apply lookup_insert_eq|done].
  - erewrite bind_done by reflexivity. unfold init. simpl.
    eexists _, None. split; [reflexivity|]. simpl.
    split; [apply lookup_insert_eq|].
    split; [by rewrite lookup_insert_ne|].
    split; [done|].
    split; [by erewrite operator_bool_load by (simpl; apply lookup_insert_eq)|].
    split; [by erewrite operator_bool_load by done|].
    intros l c [=].
Qed.

End Properties.

(** ** The properties on the sample programs *)

Section Runs.

Import Samples.

Local Ltac allocates := unfold can_allocate; simpl; discriminate.

Local Ltac is_valid :=
  split; [reflexivity | intros ? [= <-]; eexists; reflexivity].

(** C1 at [Box b = counter; b(5)]. *)
Lemma box_call_is_direct_call_witness :
  can_allocate start
  ∧ (seen (bind (function_of 1 counter 0%Z) (λ _, operator_call 1 5%Z) start)
     = Some (Got 6%Z, 0%Z)
     ∧ ∀ f : fnptr Z Z string Z,
         seen (bind (function_fnptr 1 (Some f))
                    (λ _, operator_call 1 5%Z) start)
         = Some (as_observed (direct_call fnptr_invocable f 5%Z 0%Z).1,
                 (direct_call fnptr_invocable f 5%Z 0%Z).2)).
Proof.
  split; [allocates|].
  apply (box_call_is_direct_call counter 0%Z 5%Z 1 start). allocates.
Defined.

(** C2 at a box that owns a callable which raises. *)
Lemma operator_call_failure_witness :
  valid_box two_full_boxes 2 (Some 5)
  ∧ (((∃ s', operator_call 2 7%Z two_full_boxes = Throw EmptyInvocation s')
      ↔ Some 5 = None)
     ∧ (Some 5 = None →
        operator_call 2 7%Z two_full_boxes
        = Throw EmptyInvocation two_full_boxes)
     ∧ (∀ l c, Some 5 = Some l → heap two_full_boxes !! l = Some c →
          operator_call 2 7%Z two_full_boxes =
            let '(r, c', w') := Callable_invoke c 7%Z (world two_full_boxes) in
            let s' := set_world w'
                        (set_heap (<[l := c']> (heap two_full_boxes))
                                  two_full_boxes) in
            match r with
            | Returns v => Done v s'
            | Raises e => Throw (from_callable e) s'
            end)).
Proof.
  split; [is_valid|].
  apply (operator_call_failure two_full_boxes 2 (Some 5) 7%Z). is_valid.
Defined.

(** C3, the code's behaviour, at a box whose next allocation fails. *)
Lemma assign_releases_then_constructs_witness :
  holds one_box_oom 1 0 (MkCallable counter 0%Z)
  ∧ ((∀ (U : invocable Z Z string Z) (call_o : carrier U),
        released_then_constructed (assign_of 1 U call_o) 1 0
          (MkCallable U call_o) one_box_oom)
     ∧ (∀ f : fnptr Z Z string Z,
        released_then_constructed (assign_fnptr 1 (Some f)) 1 0
          (Callable_of_fnptr f) one_box_oom)).
Proof.
  split; [by split|].
  apply (assign_releases_then_constructs one_box_oom 1 0
           (MkCallable counter 0%Z)).
  by split.
Defined.

(** C3 as the claim states it fails: with the allocation failing, both
    assignments leave by [bad_alloc] although the object the box held has
    been deleted. *)
Lemma assignment_loses_content_on_failure :
  holds one_box_oom 1 0 (MkCallable counter 0%Z)
  ∧ ¬ state_kept_on_failure (assign_of 1 counter 7%Z) 1 one_box_oom
  ∧ ¬ state_kept_on_failure (assign_fnptr 1 (Some add_one)) 1 one_box_oom.
Proof.
  split; [by split|]. split.
  - intros Hkept.
    destruct (Hkept bad_alloc _ eq_refl) as [_ Hobj].
    specialize (Hobj 0 eq_refl). vm_compute in Hobj. discriminate.
  - intros Hkept.
    destruct (Hkept bad_alloc _ eq_refl) as [_ Hobj].
    specialize (Hobj 0 eq_refl). vm_compute in Hobj. discriminate.
Qed.

(** C4 at [Box b3 = move(b1)] and [b2 = move(b1)]. *)
Lemma move_transfers_witness :
  3 ≠ 1 ∧ 2 ≠ 1
  ∧ boxes two_full_boxes !! 1 = Some (Some 0)
  ∧ valid_box two_full_boxes 2 (Some 5)
  ∧ (∀ l, Some 5 = Some l → Some 0 ≠ Some l)
  ∧ ((∃ s1, function_move 3 1 two_full_boxes = Done tt s1
        ∧ boxes s1 !! 1 = Some None
        ∧ operator_bool 1 s1 = Done false s1
        ∧ boxes s1 !! 3 = Some (Some 0)
        ∧ operator_bool 3 s1 = Done (bool_decide (Some 0 ≠ None)) s1
        ∧ operator_bool 1 two_full_boxes
          = Done (bool_decide (Some 0 ≠ None)) two_full_boxes
        ∧ heap s1 = heap two_full_boxes
        ∧ released s1 = released two_full_boxes
        ∧ ∀ argss, results (calls 3 argss s1)
                   = results (calls 1 argss two_full_boxes))
     ∧ (∃ s1, assign_move 2 1 two_full_boxes = Done tt s1
          ∧ boxes s1 !! 1 = Some None
          ∧ operator_bool 1 s1 = Done false s1
          ∧ boxes s1 !! 2 = Some (Some 0)
          ∧ operator_bool 2 s1 = Done (bool_decide (Some 0 ≠ None)) s1
          ∧ operator_bool 1 two_full_boxes
            = Done (bool_decide (Some 0 ≠ None)) two_full_boxes
          ∧ content s1 (Some 0) = content two_full_boxes (Some 0)
          ∧ ∀ argss, results (calls 2 argss s1)
                     = results (calls 1 argss two_full_boxes))).
Proof.
  split; [lia|]. split; [lia|]. split; [reflexivity|].
  split; [is_valid|]. split; [intros l [= <-]; discriminate|].
  apply (move_transfers two_full_boxes 3 2 1 (Some 0) (Some 5));
    [lia | lia | reflexivity | is_valid | intros l [= <-]; discriminate].
Defined.

(** C5 at [Box b2 = b1] where [b1] owns a counter. *)
Lemma copy_is_independent_witness :
  2 ≠ 1
  ∧ valid_box one_box 1 (Some 0)
  ∧ (Some 0 ≠ None → can_allocate one_box)
  ∧ ∃ s1 q, function_copy 2 1 one_box = Done tt s1
      ∧ boxes s1 !! 2 = Some q ∧ boxes s1 !! 1 = Some (Some 0)
      ∧ (q = None ↔ Some 0 = None)
      ∧ operator_bool 2 s1 = Done (bool_decide (Some 0 ≠ None)) s1
      ∧ operator_bool 1 one_box = Done (bool_decide (Some 0 ≠ None)) one_box
      ∧ ∀ l c, Some 0 = Some l → heap one_box !! l = Some c →
          (∃ l', q = Some l' ∧ l' ≠ l
             ∧ heap s1 !! l' = Some c ∧ heap s1 !! l = Some c)
          ∧ (own_state (T c) → ∀ xs ys,
              (∃ os s2, calls 2 xs s1 = Some (os, s2)
                 ∧ results (calls 1 ys s2) = results (calls 1 ys s1))
              ∧ (∃ os s2, calls 1 ys s1 = Some (os, s2)
                 ∧ results (calls 2 xs s2) = results (calls 2 xs s1))).
Proof.
  split; [lia|]. split; [is_valid|]. split; [intros _; allocates|].
  apply (copy_is_independent one_box 2 1 (Some 0));
    [lia | is_valid | intros _; allocates].
Defined.

(** C7 at a box that owns a counter. *)
Lemma reset_spec_witness :
  valid_box one_box 1 (Some 0)
  ∧ ∃ s', reset 1 one_box = Done tt s'
      ∧ boxes s' !! 1 = Some None
      ∧ operator_bool 1 s' = Done false s'
      ∧ (∀ args, operator_call 1 args s' = Throw EmptyInvocation s')
      ∧ heap s' = delete 0 (heap one_box)
      ∧ released s' = 0 :: released one_box.
Proof.
  split; [is_valid|].
  apply (reset_spec one_box 1 (Some 0)). is_valid.
Defined.

(** C9 at a box that owns a counter. *)
Lemma assign_null_fnptr_spec_witness :
  valid_box one_box 1 (Some 0)
  ∧ ∃ s', assign_fnptr 1 None one_box = Done tt s'
      ∧ boxes s' !! 1 = Some None
      ∧ operator_bool 1 s' = Done false s'
      ∧ heap s' = delete 0 (heap one_box)
      ∧ released s' = 0 :: released one_box.
Proof.
  split; [is_valid|].
  apply (assign_null_fnptr_spec one_box 1 (Some 0)). is_valid.
Defined.

(** C10 at a box whose callable raises. *)
Lemma operator_call_keeps_box_witness :
  holds two_full_boxes 2 5 (MkCallable failing tt)
  ∧ ∃ s', final (operator_call 2 7%Z two_full_boxes) = Some s'
      ∧ boxes s' = boxes two_full_boxes
      ∧ (∃ c', holds s' 2 5 c' ∧ T c' = T (MkCallable failing tt))
      ∧ dom (heap s') = dom (heap two_full_boxes)
      ∧ released s' = released two_full_boxes
      ∧ operator_bool 2 two_full_boxes = Done true two_full_boxes
      ∧ operator_bool 2 s' = Done true s'.
Proof.
  split; [by split|].
  apply (operator_call_keeps_box two_full_boxes 2 5
           (MkCallable failing tt) 7%Z).
  by split.
Defined.

(** *** Concrete scenarios *)

Example call_through_function_pointer :
  seen (bind (function_fnptr 1 (Some add_one)) (λ _, operator_call 1 5%Z)
             start)
  = Some (Got 6%Z, 0%Z).
Proof. reflexivity. Qed.

Example default_box_is_empty :
  default_then_call = Some (false, Some (Caught EmptyInvocation, 0%Z)).
Proof. reflexivity. Qed.

Example copies_count_apart :
  copy_then_count one_box
  = Some ([Got 1; Got 2; Got 3]%Z, [Got 1; Got 2]%Z).
Proof. vm_compute. reflexivity. Qed.

(** A closure that counts in a captured global is outside [own_state]:
    its copies count together. *)
Example shared_copies_count_together :
  copy_then_count one_shared_box
  = Some ([Got 1; Got 2; Got 3]%Z, [Got 4; Got 5]%Z).
Proof. vm_compute. reflexivity. Qed.

(** After an assignment that ran out of memory the box still has the
    address of the object the assignment deleted, and destroying the box
    deletes it a second time. *)
Example failed_assignment_dangles :
  (∃ s', assign_of 1 counter 7%Z one_box_oom = Throw bad_alloc s'
     ∧ boxes s' !! 1 = Some (Some 0) ∧ heap s' !! 0 = None)
  ∧ failed_assign_then_destroy = Some Undefined.
Proof. split; [eexists; split; [reflexivity|by split]|reflexivity]. Qed.

End Runs.

(** ** The ownership discipline is an invariant *)

Section Ownership.

Context {Rt Args Exn World : Type}.

Local Abbreviation State := (state Rt Args Exn World).
Local Abbreviation Heap := (gmap nat (Callable Rt Args Exn World)).

Implicit Types (s : State) (h : Heap) (b : gmap nat (option nat)).
Implicit Types (this other l : nat) (p q : option nat) (args : Args).

(** *** How the discipline moves with the store *)

(** A box that owns nothing is created or emptied. *)
Lemma wf_on_null h b a :
  wf_on h b → b !! a = None ∨ b !! a = Some None →
  wf_on h (<[a := None]> b).
Proof.
  intros (Hlive & Hexcl & Hown) Ha. split; [|split].
  - intros a0 l [[-> [=]]|[_ Hb]]%lookup_insert_Some. eauto.
  - intros a0 a1 l [[-> [=]]|[_ H0]]%lookup_insert_Some
                   [[-> [=]]|[_ H1]]%lookup_insert_Some. eauto.
  - intros l Hl. destruct (Hown l Hl) as [a0 Ha0]. exists a0.
    rewrite lookup_insert_ne; [done|]. intros ->.
    destruct Ha as [Ha|Ha]; congruence.
Qed.

(** The object a box owns is deleted and the box emptied. *)
Lemma wf_on_release h b a l :
  wf_on h b → b !! a = Some (Some l) →
  wf_on (delete l h) (<[a := None]> b).
Proof.
  intros (Hlive & Hexcl & Hown) Ha. split; [|split].
  - intros a0 l0 [[-> [=]]|[Hne Hb]]%lookup_insert_Some.
    rewrite lookup_delete_ne; [eauto|].
    intros ->. apply Hne. eauto.
  - intros a0 a1 l0 [[-> [=]]|[_ H0]]%lookup_insert_Some
                    [[-> [=]]|[_ H1]]%lookup_insert_Some. eauto.
  - intros l0 [c [Hne Hl0]%lookup_delete_Some].
    destruct (Hown l0) as [a0 Ha0]; [by eexists|]. exists a0.
    rewrite lookup_insert_ne; [done|]. intros ->. congruence.
Qed.

(** A box that owns nothing takes over what another box has, and that
    box is emptied. *)
Lemma wf_on_transfer h b a a' p :
  wf_on h b → a ≠ a' → b !! a' = Some p →
  b !! a = None ∨ b !! a = Some None →
  wf_on h (<[a' := None]> (<[a := p]> b)).
Proof.
  intros (Hlive & Hexcl & Hown) Hne Ha' Ha. split; [|split].
  - intros a0 l [[-> [=]]|[_ [[-> ->]|[_ Hb]]%lookup_insert_Some]]
                   %lookup_insert_Some; eauto.
  - intros a0 a1 l
      [[-> [=]]|[Hn0 [[-> ->]|[Hm0 H0]]%lookup_insert_Some]]
        %lookup_insert_Some
      [[-> [=]]|[Hn1 [[-> E1]|[Hm1 H1]]%lookup_insert_Some]]
        %lookup_insert_Some; try done.
    + exfalso. apply Hn1. eauto.
    + subst p. exfalso. apply Hn0. eauto.
    + eauto.
  - intros l Hl. destruct (Hown l Hl) as [a0 Ha0].
    destruct (decide (a0 = a')) as [->|Hn].
    + exists a. rewrite lookup_insert_ne by done.
      rewrite lookup_insert_eq. congruence.
    + exists a0. rewrite lookup_insert_ne by done.
      rewrite lookup_insert_ne; [done|]. intros ->.
      destruct Ha as [Ha|Ha]; congruence.
Qed.

(** A box that owns nothing receives a newly placed object. *)
Lemma wf_on_install h b a l c :
  wf_on h b → h !! l = None →
  b !! a = None ∨ b !! a = Some None →
  wf_on (<[l := c]> h) (<[a := Some l]> b).
Proof.
  intros (Hlive & Hexcl & Hown) Hl Ha. split; [|split].
  - intros a0 l0 [[-> [= ->]]|[_ Hb]]%lookup_insert_Some.
    + rewrite lookup_insert_eq. by eexists.
    + destruct (Hlive _ _ Hb) as [c0 Hc0].
      rewrite lookup_insert_ne; [by eexists|]. intros ->. congruence.
  - intros a0 a1 l0 [[-> [= ->]]|[_ H0]]%lookup_insert_Some
                    [[-> E]|[_ H1]]%lookup_insert_Some; try done.
    + destruct (Hlive _ _ H1) as [c0 Hc0]. congruence.
    + injection E as ->. destruct (Hlive _ _ H0) as [c0 Hc0]. congruence.
    + eauto.
  - intros l0 [c0 [[-> _]|[Hne Hl0]]%lookup_insert_Some].
    + exists a. apply lookup_insert_eq.
    + destruct (Hown l0) as [a0 Ha0]; [by eexists|]. exists a0.
      rewrite lookup_insert_ne; [done|]. intros ->.
      destruct Ha as [Ha|Ha]; congruence.
Qed.

(** The value inside a live object changes. *)
Lemma wf_on_update h b l c :
  wf_on h b → is_Some (h !! l) → wf_on (<[l := c]> h) b.
Proof.
  intros (Hlive & Hexcl & Hown) Hl. split; [|split].
  - intros a l0 Hb. rewrite lookup_insert_is_Some.
    destruct (decide (l = l0)); [by left|right; eauto].
  - done.
  - intros l0 [->|[_ Hl0]]%lookup_insert_is_Some; eauto.
Qed.

(** A box that owns nothing ceases to exist. *)
Lemma wf_on_forget h b a :
  wf_on h b → b !! a = None ∨ b !! a = Some None →
  wf_on h (delete a b).
Proof.
  intros (Hlive & Hexcl & Hown) Ha. split; [|split].
  - intros a0 l [_ Hb]%lookup_delete_Some. eauto.
  - intros a0 a1 l [_ H0]%lookup_delete_Some [_ H1]%lookup_delete_Some.
    eauto.
  - intros l Hl. destruct (Hown l Hl) as [a0 Ha0]. exists a0.
    rewrite lookup_delete_ne; [done|]. intros ->.
    destruct Ha as [Ha|Ha]; congruence.
Qed.

(** *** Steps shared by the member functions *)

Lemma wf_same_store s s' :
  heap s' = heap s → boxes s' = boxes s → wf s → wf s'.
Proof. unfold wf. by intros -> ->. Qed.

(** [reset()] from a state that obeys the discipline. *)
Lemma reset_wf s this p :
  wf s → boxes s !! this = Some p →
  ∃ s0, reset this s = Done tt s0
    ∧ wf s0
    ∧ boxes s0 = <[this := None]> (boxes s)
    ∧ heap s0 = match p with Some l => delete l (heap s) | None => heap s end
    ∧ released s0
      = match p with Some l => l :: released s | None => released s end
    ∧ new_script s0 = new_script s ∧ world s0 = world s.
Proof.
  intros Hwf Hb. destruct p as [l|].
  - destruct (proj1 Hwf this l Hb) as [c Hl].
    rewrite (reset_holds s this l c) by done. eexists.
    split; [done|]. split; [|done].
    by apply wf_on_release.
  - rewrite reset_empty by done. exists s. split; [done|].
    split; [done|]. split; [|done]. by rewrite insert_id.
Qed.

(** [callable = new Callable<...>(...)] for a box that owns nothing,
    written by a constructor ([init]) or by an assignment ([store]). *)
Lemma new_init_keeps_wf (c : Callable Rt Args Exn World) s this :
  wf s → owns_nothing s this →
  keeps_wf (bind (new c) (λ l, init this (Some l))) s.
Proof.
  intros Hwf Hnone. unfold keeps_wf.
  destruct (decide (head (new_script s) = Some true)) as [Hoom|Hok].
  - erewrite bind_throw; [|by apply new_fails; intros Hc; apply Hc]. done.
  - erewrite bind_done by by apply new_ok. unfold init. simpl.
    apply wf_on_install; [done|apply fresh_not_live|done].
Qed.

Lemma new_store_keeps_wf (c : Callable Rt Args Exn World) s this :
  wf s → boxes s !! this = Some None →
  keeps_wf (bind (new c) (λ l, store this (Some l))) s.
Proof.
  intros Hwf Hnone. unfold keeps_wf.
  destruct (decide (head (new_script s) = Some true)) as [Hoom|Hok].
  - erewrite bind_throw; [|by apply new_fails; intros Hc; apply Hc]. done.
  - erewrite bind_done by by apply new_ok. unfold store. simpl.
    rewrite Hnone. simpl.
    apply wf_on_install; [done|apply fresh_not_live|by right].
Qed.

(** *** Constructors *)

(** Every constructor, run for a box that does not exist yet in a state
    that obeys the ownership discipline, has defined behaviour and leaves
    a state that obeys it, whether it completes or runs out of memory. *)
Theorem constructors_keep_wf s this :
  wf s → boxes s !! this = None →
  keeps_wf (function_default this) s
  ∧ (∀ other, is_Some (boxes s !! other) →
       keeps_wf (function_move this other) s
       ∧ keeps_wf (function_copy this other) s)
  ∧ (∀ (U : invocable Rt Args Exn World) (c : carrier U),
       keeps_wf (function_of this U c) s)
  ∧ (∀ func, keeps_wf (function_fnptr this func) s).
Proof.
  intros Hwf Hnew.
  assert (owns_nothing s this) as Hnone by by left.
  split; [|split; [|split]].
  - unfold keeps_wf, function_default, init. simpl.
    by apply wf_on_null.
  - intros other [p Ho].
    assert (this ≠ other) as Hne by (intros ->; congruence). split.
    + unfold keeps_wf, function_move.
      erewrite bind_done by (unfold load; by rewrite Ho).
      erewrite bind_done by reflexivity.
      unfold store. simpl. rewrite lookup_insert_ne, Ho by done. simpl.
      by apply wf_on_transfer.
    + unfold function_copy, keeps_wf.
      erewrite bind_done by (unfold load; by rewrite Ho).
      destruct p as [l|].
      * destruct (proj1 Hwf other l Ho) as [c Hl].
        pose proof (new_init_keeps_wf c s this Hwf Hnone) as Hk.
        unfold keeps_wf in Hk. unfold clone, bind in *.
        rewrite Hl, Callable_eta. unfold ret.
        by destruct (new c s).
      * erewrite bind_done by reflexivity. unfold init. simpl.
        by apply wf_on_null.
  - intros U c. apply (new_init_keeps_wf (MkCallable U c)); done.
  - intros [f|].
    + pose proof (new_init_keeps_wf (Callable_of_fnptr f) s this Hwf Hnone)
        as Hk.
      unfold keeps_wf, function_fnptr, bind, ret in *.
      by destruct (new (Callable_of_fnptr f) s).
    + unfold keeps_wf, function_fnptr, bind, ret, init. simpl.
      by apply wf_on_null.
Qed.

(** *** Release *)

(** [reset()] and the destructor, run on a live box in a state that obeys
    the ownership discipline, always complete and leave a state that
    obeys it: the destructor leaves no object behind. *)
Theorem release_keeps_wf s this :
  wf s → is_Some (boxes s !! this) →
  (∃ s', reset this s = Done tt s' ∧ wf s')
  ∧ (∃ s', function_destroy this s = Done tt s' ∧ wf s'
       ∧ boxes s' !! this = None).
Proof.
  intros Hwf [p Hb].
  destruct (reset_wf s this p Hwf Hb) as (s0 & Hreset & Hwf0 & Hb0 & _).
  split; [by exists s0|].
  unfold function_destroy. erewrite bind_done by apply Hreset.
  eexists. split; [reflexivity|]. simpl. split.
  - apply wf_on_forget; [done|]. right. rewrite Hb0. apply lookup_insert_eq.
  - apply lookup_delete_eq.
Qed.

(** *** Assignment from another box *)

(** Move assignment and copy assignment between live boxes (the same box
    included), from a state that obeys the ownership discipline, have
    defined behaviour and leave a state that obeys it, also when the copy
    runs out of memory. *)
Theorem box_assignment_keeps_wf s this other :
  wf s → is_Some (boxes s !! this) → is_Some (boxes s !! other) →
  keeps_wf (assign_move this other) s ∧ keeps_wf (assign_copy this other) s.
Proof.
  intros Hwf [q Hq] [p Hp].
  destruct (decide (this = other)) as [->|Hne].
  { unfold keeps_wf, assign_move, assign_copy.
    rewrite bool_decide_eq_false_2 by (intros Hc; by apply Hc). by split. }
  destruct (reset_wf s this q Hwf Hq)
    as (s0 & Hreset & Hwf0 & Hb0 & _).
  assert (boxes s0 !! this = Some None) as Hthis0
    by (rewrite Hb0; apply lookup_insert_eq).
  assert (boxes s0 !! other = Some p) as Hother0
    by (by rewrite Hb0, lookup_insert_ne).
  unfold keeps_wf, assign_move, assign_copy.
  rewrite bool_decide_eq_true_2 by done. split.
  - erewrite bind_done by apply Hreset.
    erewrite bind_done by (unfold load; by rewrite Hother0).
    unfold bind, store. rewrite Hthis0. simpl.
    rewrite lookup_insert_ne, Hother0 by done. simpl.
    apply wf_on_transfer; try done. by right.
  - erewrite bind_done by apply Hreset.
    erewrite bind_done by (unfold load; by rewrite Hother0).
    destruct p as [l|].
    + destruct (proj1 Hwf0 other l Hother0) as [c Hl].
      pose proof (new_store_keeps_wf c s0 this Hwf0 Hthis0) as Hk.
      unfold keeps_wf in Hk. unfold clone, bind in *.
      rewrite Hl, Callable_eta. unfold ret.
      by destruct (new c s0).
    + erewrite bind_done by reflexivity. unfold store.
      rewrite Hthis0. simpl. apply wf_on_null; [done|by right].
Qed.

(** *** Invocation *)

(** Invoking a live box from a state that obeys the ownership discipline
    has defined behaviour and leaves a state that obeys it, whatever the
    callable does. *)
Theorem operator_call_keeps_wf s this args :
  wf s → is_Some (boxes s !! this) →
  keeps_wf (operator_call this args) s.
Proof.
  intros Hwf [p Hb]. unfold keeps_wf. destruct p as [l|].
  - destruct (proj1 Hwf this l Hb) as [c Hl].
    rewrite (operator_call_holds s this l c) by done.
    unfold Callable_invoke.
    destruct (call_op (T c) (callable c) args (world s)) as [[r t'] w'].
    assert (wf (set_world w'
                 (set_heap (<[l := MkCallable (T c) t']> (heap s)) s)))
      as Hwf' by (apply wf_on_update; [done|by eexists]).
    by destruct r.
  - by rewrite operator_call_empty.
Qed.

(** *** Assignment of a callable or of a function pointer *)

(** The steps [delete callable; callable = new Callable<...>(c0);] on a
    box that holds the object at [l]. *)
Lemma delete_new_store_holds (c0 : Callable Rt Args Exn World) s this l c :
  holds s this l c →
  bind (load this) (λ p, bind (delete_ptr p) (λ _,
    bind (new c0) (λ l0, store this (Some l0)))) s
  = if decide (head (new_script s) = Some true)
    then Throw bad_alloc
           (MkState (delete l (heap s)) (boxes s) (l :: released s)
                    (tail (new_script s)) (world s))
    else Done tt
           (MkState (<[fresh (dom (delete l (heap s))) := c0]>
                      (delete l (heap s)))
                    (<[this := Some (fresh (dom (delete l (heap s))))]>
                      (boxes s))
                    (l :: released s) (tail (new_script s)) (world s)).
Proof.
  intros [Hb Hl].
  erewrite bind_done by (unfold load; by rewrite Hb).
  erewrite bind_done by apply (delete_live _ _ _ Hl).
  destruct (decide (head (new_script s) = Some true)) as [Hoom|Hok].
  - erewrite bind_throw; [|by apply new_fails; intros Hc; apply Hc]. done.
  - erewrite bind_done by by apply new_ok.
    unfold store. simpl. by rewrite Hb.
Qed.

(** The same steps on an empty box: [delete] has nothing to do. *)
Lemma delete_new_store_empty (c0 : Callable Rt Args Exn World) s this :
  boxes s !! this = Some None →
  bind (load this) (λ p, bind (delete_ptr p) (λ _,
    bind (new c0) (λ l0, store this (Some l0)))) s
  = if decide (head (new_script s) = Some true)
    then Throw bad_alloc
           (MkState (heap s) (boxes s) (released s)
                    (tail (new_script s)) (world s))
    else Done tt
           (MkState (<[fresh (dom (heap s)) := c0]> (heap s))
                    (<[this := Some (fresh (dom (heap s)))]> (boxes s))
                    (released s) (tail (new_script s)) (world s)).
Proof.
  intros Hb.
  erewrite bind_done by (unfold load; by rewrite Hb).
  erewrite bind_done by reflexivity.
  destruct (decide (head (new_script s) = Some true)) as [Hoom|Hok].
  - erewrite bind_throw; [|by apply new_fails; intros Hc; apply Hc]. done.
  - erewrite bind_done by by apply new_ok.
    unfold store. simpl. by rewrite Hb.
Qed.

Lemma assign_fnptr_steps (f : fnptr Rt Args Exn World) s this :
  assign_fnptr this (Some f) s
  = bind (load this) (λ p, bind (delete_ptr p) (λ _,
      bind (new (Callable_of_fnptr f)) (λ l0, store this (Some l0)))) s.
Proof.
  unfold assign_fnptr, bind, ret.
  destruct (load this s) as [p0 s0| |]; [|done..].
  destruct (delete_ptr p0 s0) as [[] s1| |]; [|done..].
  by destruct (new (Callable_of_fnptr f) s1).
Qed.

Lemma delete_new_store_wf (c0 : Callable Rt Args Exn World) s this :
  wf s → is_Some (boxes s !! this) →
  match bind (load this) (λ p, bind (delete_ptr p) (λ _,
          bind (new c0) (λ l0, store this (Some l0)))) s with
  | Done _ s' => wf s'
  | Throw e s' => e = bad_alloc ∧ (wf s' ↔ boxes s !! this = Some None)
  | Undefined => False
  end.
Proof.
  intros Hwf [[l|] Hb].
  - destruct (proj1 Hwf this l Hb) as [c Hl].
    rewrite (delete_new_store_holds c0 s this l c) by done.
    destruct (decide (head (new_script s) = Some true)) as [Hoom|Hok].
    + split; [done|]. split; [|congruence].
      intros (Hlive & _). exfalso.
      destruct (Hlive this l Hb) as [c' Hc']. simpl in Hc'.
      by rewrite lookup_delete_eq in Hc'.
    + unfold wf. simpl.
      rewrite <- (insert_insert_eq (boxes s) this (Some _) None).
      apply wf_on_install.
      * by apply wf_on_release.
      * apply not_elem_of_dom, is_fresh.
      * right. apply lookup_insert_eq.
  - rewrite (delete_new_store_empty c0 s this) by done.
    destruct (decide (head (new_script s) = Some true)) as [Hoom|Hok].
    + split; [done|]. by split.
    + unfold wf. simpl.
      apply wf_on_install; [done|apply fresh_not_live|by right].
Qed.

(** Assigning a callable or a function pointer to a live box, from a
    state that obeys the ownership discipline, has defined behaviour.
    When it completes the discipline holds again.  When it leaves it is
    by [bad_alloc], and then the discipline holds exactly if the box was
    empty before: a box that held content is left pointing at the object
    the assignment deleted. *)
Theorem callable_assignment_wf s this :
  wf s → is_Some (boxes s !! this) →
  (∀ (U : invocable Rt Args Exn World) (c0 : carrier U),
     match assign_of this U c0 s with
     | Done _ s' => wf s'
     | Throw e s' => e = bad_alloc ∧ (wf s' ↔ boxes s !! this = Some None)
     | Undefined => False
     end)
  ∧ (∀ func,
     match assign_fnptr this func s with
     | Done _ s' => wf s'
     | Throw e s' => e = bad_alloc ∧ (wf s' ↔ boxes s !! this = Some None)
     | Undefined => False
     end).
Proof.
  intros Hwf Hlive. split.
  - intros U c0. apply (delete_new_store_wf (MkCallable U c0)); done.
  - intros [f|].
    + rewrite assign_fnptr_steps. by apply delete_new_store_wf.
    + destruct Hlive as [p Hb]. unfold assign_fnptr.
      erewrite bind_done by (unfold load; by rewrite Hb).
      destruct p as [l|].
      * destruct (proj1 Hwf this l Hb) as [c Hl].
        erewrite bind_done by apply (delete_live _ _ _ Hl).
        erewrite bind_done by reflexivity.
        unfold store. simpl. rewrite Hb. by apply wf_on_release.
      * erewrite bind_done by reflexivity.
        erewrite bind_done by reflexivity.
        unfold store. rewrite Hb. simpl.
        apply wf_on_null; [done|by right].
Qed.

(** When a box holds content and the allocation fails, assigning a
    callable or a non-null function pointer leaves by [bad_alloc] with the
    box still carrying the address of the deleted object: its boolean
    conversion is still true, and invoking it, resetting it or destroying
    it is undefined behaviour (a use after free, a double free). *)
Theorem failed_assignment_leaves_dangling_pointer s this l c :
  holds s this l c → ¬ can_allocate s →
  (∀ (U : invocable Rt Args Exn World) (c0 : carrier U),
     left_dangling (assign_of this U c0) this l s)
  ∧ (∀ f, left_dangling (assign_fnptr this (Some f)) this l s).
Proof.
  intros Hh Hoom.
  assert (head (new_script s) = Some true) as Hscript.
  { destruct (decide (head (new_script s) = Some true)); [done|].
    by exfalso; apply Hoom. }
  assert (∀ c0 : Callable Rt Args Exn World,
    left_dangling
      (bind (load this) (λ p, bind (delete_ptr p) (λ _,
         bind (new c0) (λ l0, store this (Some l0))))) this l s) as Hgen.
  { intros c0. unfold left_dangling.
    rewrite (delete_new_store_holds c0 s this l c) by done.
    rewrite decide_True by done. destruct Hh as [Hb Hl].
    eexists. split; [reflexivity|]. simpl.
    split; [done|]. split; [apply lookup_delete_eq|].
    split; [by erewrite operator_bool_load by done|].
    split; [|split].
    - intros args. unfold operator_call, bind, load, invoke. simpl.
      rewrite Hb. simpl. by rewrite lookup_delete_eq.
    - unfold reset, bind, load, delete_ptr. simpl. rewrite Hb. simpl.
      by rewrite lookup_delete_eq.
    - unfold function_destroy, reset, bind, load, delete_ptr. simpl.
      rewrite Hb. simpl. by rewrite lookup_delete_eq. }
  split.
  - intros U c0. apply (Hgen (MkCallable U c0)).
  - intros f. unfold left_dangling. rewrite assign_fnptr_steps.
    apply Hgen.
Qed.

(** On an empty box the assignment has nothing to delete: it installs
    the new adapter at a fresh address and releases nothing, or, when the
    allocation fails, leaves by [bad_alloc] with the box still empty and
    no object created or deleted. *)
Theorem assignment_to_empty_box s this :
  boxes s !! this = Some None →
  ∀ (U : invocable Rt Args Exn World) (c0 : carrier U),
    (can_allocate s ∧
     ∃ s' l', assign_of this U c0 s = Done tt s'
       ∧ heap s !! l' = None
       ∧ holds s' this l' (MkCallable U c0)
       ∧ heap s' = <[l' := MkCallable U c0]> (heap s)
       ∧ released s' = released s)
    ∨ (¬ can_allocate s ∧
       ∃ s', assign_of this U c0 s = Throw bad_alloc s'
         ∧ boxes s' = boxes s ∧ heap s' = heap s
         ∧ released s' = released s ∧ world s' = world s).
Proof.
  intros Hb U c0. unfold assign_of.
  rewrite (delete_new_store_empty (MkCallable U c0) s this) by done.
  destruct (decide (head (new_script s) = Some true)) as [Hoom|Hok].
  - right. split; [by intros Hc; apply Hc|]. by eexists.
  - left. split; [done|]. do 2 eexists. split; [reflexivity|]. simpl.
    split; [apply fresh_not_live|]. split; [|done].
    split; simpl; apply lookup_insert_eq.
Qed.

(** *** Copy assignment *)

(** Copy assignment between two different live boxes, from a state that
    obeys the ownership discipline.  The target's old content is released
    first (once); the source and its object are left as they were.  With
    an empty source, or with the allocation succeeding, the assignment
    completes and the target's content equals the source's (a clone at
    another address, or nothing).  With a non-empty source and the
    allocation failing it leaves by [bad_alloc] and the target is empty. *)
Theorem assign_copy_spec s this other p q :
  wf s → this ≠ other →
  boxes s !! this = Some q → boxes s !! other = Some p →
  ∃ s', final (assign_copy this other s) = Some s'
    ∧ released s'
      = match q with Some lq => lq :: released s | None => released s end
    ∧ boxes s' !! other = Some p
    ∧ content s' p = content s p
    ∧ (p = None ∨ can_allocate s →
         assign_copy this other s = Done tt s'
         ∧ ∃ q', boxes s' !! this = Some q'
             ∧ content s' q' = content s p
             ∧ (q' = None ↔ p = None)
             ∧ ∀ l, p = Some l → q' ≠ Some l)
    ∧ (p ≠ None ∧ ¬ can_allocate s →
         assign_copy this other s = Throw bad_alloc s'
         ∧ boxes s' !! this = Some None).
Proof.
  intros Hwf Hne Hq Hp.
  destruct (reset_wf s this q Hwf Hq)
    as (s0 & Hreset & Hwf0 & Hb0 & Hh0 & Hr0 & Hn0 & _).
  assert (boxes s0 !! this = Some None) as Hthis0
    by (rewrite Hb0; apply lookup_insert_eq).
  assert (boxes s0 !! other = Some p) as Hother0
    by (by rewrite Hb0, lookup_insert_ne).
  assert (content s0 p = content s p) as Hc0.
  { destruct p as [l|]; [|done]. simpl. rewrite Hh0.
    destruct q as [lq|]; [|done]. rewrite lookup_delete_ne; [done|].
    intros ->. apply Hne. by apply (proj1 (proj2 Hwf) this other l). }
  unfold assign_copy. rewrite bool_decide_eq_true_2 by done.
  erewrite bind_done by apply Hreset.
  erewrite bind_done by (unfold load; by rewrite Hother0).
  destruct p as [l|].
  - destruct (proj1 Hwf0 other l Hother0) as [c Hl].
    assert (heap s !! l = Some c) as Hls.
    { simpl in Hc0. rewrite Hl in Hc0. simpl in Hc0.
      destruct (heap s !! l); simpl in Hc0; congruence. }
    destruct (decide (head (new_script s) = Some true)) as [Hoom|Hok].
    + erewrite bind_throw; last first.
      { erewrite bind_throw; [reflexivity|].
        unfold clone. rewrite Hl, Callable_eta.
        apply new_fails. unfold can_allocate. rewrite Hn0.
        by intros Hc; apply Hc. }
      eexists. split; [reflexivity|]. simpl.
      split; [done|]. split; [done|]. split; [done|]. split.
      * intros [[=]|Hok]. by exfalso; apply Hok.
      * by intros _.
    + erewrite bind_done; last first.
      { erewrite bind_done; [reflexivity|].
        unfold clone. rewrite Hl, Callable_eta.
        apply new_ok. unfold can_allocate. by rewrite Hn0. }
      unfold store. simpl. rewrite Hthis0. simpl.
      set (l' := fresh (dom (heap s0))).
      assert (l' ≠ l) as Hfresh.
      { intros Heq. pose proof (fresh_not_live s0) as Hnone.
        fold l' in Hnone. rewrite Heq in Hnone. congruence. }
      eexists. split; [reflexivity|]. simpl.
      split; [done|]. split; [by rewrite lookup_insert_ne|].
      split; [by rewrite lookup_insert_ne, Hl, Hls|]. split.
      * intros _. split; [done|]. exists (Some l').
        split; [apply lookup_insert_eq|]. simpl.
        split; [by rewrite lookup_insert_eq, Hls|].
        split; [done|]. intros l0 [= <-]. congruence.
      * intros [_ Hoom]. by exfalso; apply Hoom.
  - erewrite bind_done by reflexivity. unfold store. rewrite Hthis0.
    eexists. split; [reflexivity|]. simpl.
    split; [done|]. split; [by rewrite lookup_insert_ne|].
    split; [done|]. split.
    + intros _. split; [done|]. exists None.
      split; [apply lookup_insert_eq|]. done.
    + by intros [Hc _].
Qed.

(** *** The destructor *)

(** Destroying a valid box always completes: the box is gone, the other
    boxes are as they were, and the object it owned, if any, has been
    deleted once. *)
Theorem function_destroy_spec s this p :
  valid_box s this p →
  ∃ s', function_destroy this s = Done tt s'
    ∧ boxes s' = delete this (boxes s)
    ∧ heap s' = match p with Some l => delete l (heap s) | None => heap s end
    ∧ released s'
      = match p with Some l => l :: released s | None => released s end
    ∧ new_script s' = new_script s ∧ world s' = world s.
Proof.
  intros [Hb Hlive]. unfold function_destroy. destruct p as [l|].
  - destruct (Hlive l eq_refl) as [c Hl].
    erewrite bind_done by by apply (reset_holds s this l c).
    eexists. split; [reflexivity|]. simpl.
    split; [apply delete_insert_eq|done].
  - erewrite bind_done by by apply reset_empty.
    eexists. split; [reflexivity|]. done.
Qed.

(** Constructing a box from a callable or from a non-null function
    pointer and destroying it at once gives back the heap and the boxes
    there were: the one object allocated is the one object released. *)
Theorem construct_destroy_roundtrip s this :
  boxes s !! this = None → can_allocate s →
  ∃ l, heap s !! l = None
    ∧ (∀ (U : invocable Rt Args Exn World) (c : carrier U),
         bind (function_of this U c) (λ _, function_destroy this) s
         = Done tt (MkState (heap s) (boxes s) (l :: released s)
                            (tail (new_script s)) (world s)))
    ∧ (∀ f,
         bind (function_fnptr this (Some f)) (λ _, function_destroy this) s
         = Done tt (MkState (heap s) (boxes s) (l :: released s)
                            (tail (new_script s)) (world s))).
Proof.
  intros Hnew Hok. exists (fresh (dom (heap s))).
  split; [apply fresh_not_live|].
  assert (∀ c0 : Callable Rt Args Exn World,
    bind (bind (new c0) (λ l, init this (Some l)))
         (λ _, function_destroy this) s
    = Done tt (MkState (heap s) (boxes s)
                 (fresh (dom (heap s)) :: released s)
                 (tail (new_script s)) (world s))) as Hgen.
  { intros c0.
    erewrite bind_done; last first.
    { erewrite bind_done by by apply new_ok. reflexivity. }
    unfold function_destroy.
    erewrite bind_done; last first.
    { apply (reset_holds _ this (fresh (dom (heap s))) c0).
      split; simpl; apply lookup_insert_eq. }
    simpl. unfold set_boxes. simpl. f_equal. f_equal.
    - apply delete_insert_id, fresh_not_live.
    - rewrite insert_insert_eq. by apply delete_insert_id. }
  split.
  - intros U c. apply (Hgen (MkCallable U c)).
  - intros f. etrans; [|apply (Hgen (Callable_of_fnptr f))].
    assert (function_fnptr this (Some f) s
            = bind (new (Callable_of_fnptr f))
                   (λ l, init this (Some l)) s) as Hsteps.
    { unfold function_fnptr, bind, ret.
      by destruct (new (Callable_of_fnptr f) s). }
    unfold bind at 1. rewrite Hsteps. reflexivity.
Qed.

(** A second [reset()] finds the box empty and does nothing: the sequence
    of two resets is one reset. *)
Theorem reset_idempotent s this p :
  valid_box s this p →
  bind (reset this) (λ _, reset this) s = reset this s
  ∧ ∃ s', reset this s = Done tt s'.
Proof.
  intros [Hb Hlive]. destruct p as [l|].
  - destruct (Hlive l eq_refl) as [c Hl].
    rewrite (reset_holds s this l c) by done.
    split; [|by eexists].
    erewrite bind_done by by apply (reset_holds s this l c).
    apply reset_empty. simpl. apply lookup_insert_eq.
  - rewrite reset_empty by done. split; [|by eexists].
    erewrite bind_done by by apply reset_empty. by apply reset_empty.
Qed.

(** *** Constructors that run out of memory *)

(** When the allocation fails, the constructor from a callable and the
    copy constructor from a non-empty box leave by [bad_alloc] having
    created no box and no object and released nothing; the source of the
    copy is as it was. *)
Theorem failed_constructor_leaves_nothing s this :
  ¬ can_allocate s →
  (∀ (U : invocable Rt Args Exn World) (c : carrier U),
     ∃ s', function_of this U c s = Throw bad_alloc s'
       ∧ boxes s' = boxes s ∧ heap s' = heap s
       ∧ released s' = released s ∧ world s' = world s)
  ∧ (∀ other l c, holds s other l c →
     ∃ s', function_copy this other s = Throw bad_alloc s'
       ∧ boxes s' = boxes s ∧ heap s' = heap s
       ∧ released s' = released s ∧ world s' = world s).
Proof.
  intros Hoom. split.
  - intros U c. unfold function_of.
    erewrite bind_throw by by apply new_fails. by eexists.
  - intros other l c [Hb Hl]. unfold function_copy.
    erewrite bind_done by (unfold load; by rewrite Hb).
    erewrite bind_throw; last first.
    { erewrite bind_throw; [reflexivity|].
      unfold clone. rewrite Hl. by apply new_fails. }
    by eexists.
Qed.

(** *** The emptiness tests *)

(** On a valid box [operator bool] and [operator?] give the same answer
    and change nothing, and the answer is false exactly when an
    invocation would fail with EmptyInvocation. *)
Theorem emptiness_tests_agree s this p args :
  valid_box s this p →
  ∃ yes : bool, operator_bool this s = Done yes s
    ∧ operator_question this s = Done yes s
    ∧ (yes = false ↔ operator_call this args s = Throw EmptyInvocation s)
    ∧ (yes = true ↔ ∃ l, p = Some l).
Proof.
  intros [Hb Hlive]. exists (bool_decide (p ≠ None)).
  split; [by apply operator_bool_load|].
  split; [unfold operator_question, bind, load, ret; by rewrite Hb|].
  destruct p as [l|].
  - rewrite bool_decide_eq_true_2 by done. split.
    + split; [done|]. intros Hcall. exfalso.
      destruct (Hlive l eq_refl) as [c Hl].
      rewrite (operator_call_holds s this l c) in Hcall by done.
      destruct (Callable_invoke c args (world s)) as [[[v|e] c'] w'];
        simpl in Hcall; discriminate.
    + split; [by exists l|done].
  - rewrite bool_decide_eq_false_2 by (intros Hc; by apply Hc). split.
    + split; [intros _; by apply operator_call_empty|done].
    + split; [done|]. by intros [l [=]].
Qed.

(** *** A copy starts out as its original *)

(** Right after a successful copy construction the copy and the original
    are indistinguishable to a caller: any run of invocations shows the
    same results on either, which are the results the original would have
    shown before the copy was taken. *)
Theorem copy_behaves_like_original s this other p :
  this ≠ other → valid_box s other p → (p ≠ None → can_allocate s) →
  ∃ s1, function_copy this other s = Done tt s1
    ∧ ∀ argss,
        results (calls this argss s1) = results (calls other argss s1)
        ∧ results (calls this argss s1) = results (calls other argss s).
Proof.
  intros Hne [Ho Hlive] Halloc. unfold function_copy.
  erewrite bind_done by (unfold load; by rewrite Ho).
  destruct p as [l|].
  - destruct (Hlive l eq_refl) as [c Hl].
    assert (can_allocate s) as Hok by by apply Halloc.
    set (l' := fresh (dom (heap s))).
    assert (l' ≠ l) as Hfresh.
    { intros Heq. pose proof (fresh_not_live s) as Hnone.
      fold l' in Hnone. rewrite Heq in Hnone. congruence. }
    erewrite bind_done; last first.
    { erewrite bind_done; [reflexivity|].
      unfold clone. rewrite Hl, Callable_eta. by apply new_ok. }
    unfold init. fold l'. simpl. eexists. split; [reflexivity|].
    intros argss. split.
    + apply (calls_agree argss _ _ this other (Some l') (Some l)); simpl.
      * apply lookup_insert_eq.
      * by rewrite lookup_insert_ne.
      * by rewrite lookup_insert_eq, lookup_insert_ne, Hl.
      * done.
    + apply (calls_agree argss _ _ this other (Some l') (Some l)); simpl.
      * apply lookup_insert_eq.
      * done.
      * by rewrite lookup_insert_eq, Hl.
      * done.
  - erewrite bind_done by reflexivity. unfold init. simpl.
    eexists. split; [reflexivity|]. intros argss. split.
    + apply (calls_agree argss _ _ this other None None); simpl; try done.
      * apply lookup_insert_eq.
      * by rewrite lookup_insert_ne.
    + apply (calls_agree argss _ _ this other None None); simpl; try done.
      apply lookup_insert_eq.
Qed.

End Ownership.

(** ** The ownership properties on the sample programs *)

Section OwnershipRuns.

Import Samples.

Local Ltac allocates := unfold can_allocate; simpl; discriminate.

Local Ltac is_valid :=
  split; [reflexivity | intros ? [= <-]; eexists; reflexivity].

(** Case analysis on the lookups in the literal maps of a sample state. *)
Local Ltac map_cases :=
  repeat match goal with
    | H : is_Some _ |- _ => destruct H as [? H]
    | H : <[_ := _]> _ !! _ = Some _ |- _ =>
        apply lookup_insert_Some in H as [[<- ?]|[? H]]
    | H : {[_ := _]} !! _ = Some _ |- _ =>
        apply lookup_singleton_Some in H as [<- ?]
    | H : ∅ !! _ = Some _ |- _ => by rewrite lookup_empty in H
    end;
  simplify_eq.

Local Ltac sample_wf :=
  unfold wf, wf_on; simpl; split; [|split]; intros; map_cases;
    try done; try (by eexists); try (by exists 1); try (by exists 2).

Lemma wf_start : wf start.
Proof. sample_wf. Qed.

Lemma wf_one_box : wf one_box.
Proof. sample_wf. Qed.

Lemma wf_one_box_oom : wf one_box_oom.
Proof. sample_wf. Qed.

Lemma wf_two_boxes : wf two_boxes.
Proof. sample_wf. Qed.

Lemma wf_two_full_boxes : wf two_full_boxes.
Proof. sample_wf. Qed.

Local Ltac out_of_memory :=
  unfold can_allocate; simpl; intros Hc; by apply Hc.

(** Constructors for a new box [2] beside a box that owns a counter. *)
Lemma constructors_keep_wf_witness :
  wf one_box ∧ boxes one_box !! 2 = None
  ∧ (keeps_wf (function_default 2) one_box
     ∧ (∀ other, is_Some (boxes one_box !! other) →
          keeps_wf (function_move 2 other) one_box
          ∧ keeps_wf (function_copy 2 other) one_box)
     ∧ (∀ (U : invocable Z Z string Z) (c : carrier U),
          keeps_wf (function_of 2 U c) one_box)
     ∧ (∀ func, keeps_wf (function_fnptr 2 func) one_box)).
Proof.
  split; [apply wf_one_box|]. split; [reflexivity|].
  apply (constructors_keep_wf one_box 2); [apply wf_one_box|reflexivity].
Defined.

(** [reset()] and the destructor on a box that owns a counter. *)
Lemma release_keeps_wf_witness :
  wf one_box ∧ is_Some (boxes one_box !! 1)
  ∧ ((∃ s', reset 1 one_box = Done tt s' ∧ wf s')
     ∧ (∃ s', function_destroy 1 one_box = Done tt s' ∧ wf s'
          ∧ boxes s' !! 1 = None)).
Proof.
  split; [apply wf_one_box|]. split; [by eexists|].
  apply (release_keeps_wf one_box 1); [apply wf_one_box|by eexists].
Defined.

(** [b2 = move(b1)] and [b2 = b1] between two boxes with content. *)
Lemma box_assignment_keeps_wf_witness :
  wf two_full_boxes
  ∧ is_Some (boxes two_full_boxes !! 2)
  ∧ is_Some (boxes two_full_boxes !! 1)
  ∧ (keeps_wf (assign_move 2 1) two_full_boxes
     ∧ keeps_wf (assign_copy 2 1) two_full_boxes).
Proof.
  split; [apply wf_two_full_boxes|]. split; [by eexists|].
  split; [by eexists|].
  apply (box_assignment_keeps_wf two_full_boxes 2 1);
    [apply wf_two_full_boxes|by eexists|by eexists].
Defined.

(** Invoking a box whose callable raises. *)
Lemma operator_call_keeps_wf_witness :
  wf two_full_boxes ∧ is_Some (boxes two_full_boxes !! 2)
  ∧ keeps_wf (operator_call 2 7%Z) two_full_boxes.
Proof.
  split; [apply wf_two_full_boxes|]. split; [by eexists|].
  apply (operator_call_keeps_wf two_full_boxes 2 7%Z);
    [apply wf_two_full_boxes|by eexists].
Defined.

(** Assigning to a box with content while memory runs out. *)
Lemma callable_assignment_wf_witness :
  wf one_box_oom ∧ is_Some (boxes one_box_oom !! 1)
  ∧ ((∀ (U : invocable Z Z string Z) (c0 : carrier U),
        match assign_of 1 U c0 one_box_oom with
        | Done _ s' => wf s'
        | Throw e s' =>
            e = bad_alloc ∧ (wf s' ↔ boxes one_box_oom !! 1 = Some None)
        | Undefined => False
        end)
     ∧ (∀ func,
        match assign_fnptr 1 func one_box_oom with
        | Done _ s' => wf s'
        | Throw e s' =>
            e = bad_alloc ∧ (wf s' ↔ boxes one_box_oom !! 1 = Some None)
        | Undefined => False
        end)).
Proof.
  split; [apply wf_one_box_oom|]. split; [by eexists|].
  apply (callable_assignment_wf one_box_oom 1);
    [apply wf_one_box_oom|by eexists].
Defined.

Lemma failed_assignment_leaves_dangling_pointer_witness :
  holds one_box_oom 1 0 (MkCallable counter 0%Z)
  ∧ ¬ can_allocate one_box_oom
  ∧ ((∀ (U : invocable Z Z string Z) (c0 : carrier U),
        left_dangling (assign_of 1 U c0) 1 0 one_box_oom)
     ∧ (∀ f, left_dangling (assign_fnptr 1 (Some f)) 1 0 one_box_oom)).
Proof.
  split; [by split|]. split; [out_of_memory|].
  apply (failed_assignment_leaves_dangling_pointer one_box_oom 1 0
           (MkCallable counter 0%Z)); [by split|out_of_memory].
Defined.

(** Assigning a callable to the empty box [2]. *)
Lemma assignment_to_empty_box_witness :
  boxes two_boxes !! 2 = Some None
  ∧ ∀ (U : invocable Z Z string Z) (c0 : carrier U),
      (can_allocate two_boxes ∧
       ∃ s' l', assign_of 2 U c0 two_boxes = Done tt s'
         ∧ heap two_boxes !! l' = None
         ∧ holds s' 2 l' (MkCallable U c0)
         ∧ heap s' = <[l' := MkCallable U c0]> (heap two_boxes)
         ∧ released s' = released two_boxes)
      ∨ (¬ can_allocate two_boxes ∧
         ∃ s', assign_of 2 U c0 two_boxes = Throw bad_alloc s'
           ∧ boxes s' = boxes two_boxes ∧ heap s' = heap two_boxes
           ∧ released s' = released two_boxes
           ∧ world s' = world two_boxes).
Proof.
  split; [reflexivity|].
  apply (assignment_to_empty_box two_boxes 2). reflexivity.
Defined.

(** [b2 = b1] where [b1] owns a counter and [b2] a failing callable. *)
Lemma assign_copy_spec_witness :
  wf two_full_boxes ∧ 2 ≠ 1
  ∧ boxes two_full_boxes !! 2 = Some (Some 5)
  ∧ boxes two_full_boxes !! 1 = Some (Some 0)
  ∧ ∃ s', final (assign_copy 2 1 two_full_boxes) = Some s'
      ∧ released s' = 5 :: released two_full_boxes
      ∧ boxes s' !! 1 = Some (Some 0)
      ∧ content s' (Some 0) = content two_full_boxes (Some 0)
      ∧ (Some 0 = None ∨ can_allocate two_full_boxes →
           assign_copy 2 1 two_full_boxes = Done tt s'
           ∧ ∃ q', boxes s' !! 2 = Some q'
               ∧ content s' q' = content two_full_boxes (Some 0)
               ∧ (q' = None ↔ Some 0 = None)
               ∧ ∀ l, Some 0 = Some l → q' ≠ Some l)
      ∧ (Some 0 ≠ None ∧ ¬ can_allocate two_full_boxes →
           assign_copy 2 1 two_full_boxes = Throw bad_alloc s'
           ∧ boxes s' !! 2 = Some None).
Proof.
  split; [apply wf_two_full_boxes|]. split; [lia|].
  split; [reflexivity|]. split; [reflexivity|].
  apply (assign_copy_spec two_full_boxes 2 1 (Some 0) (Some 5));
    [apply wf_two_full_boxes|lia|reflexivity|reflexivity].
Defined.

(** Destroying a box that owns a counter. *)
Lemma function_destroy_spec_witness :
  valid_box one_box 1 (Some 0)
  ∧ ∃ s', function_destroy 1 one_box = Done tt s'
      ∧ boxes s' = delete 1 (boxes one_box)
      ∧ heap s' = delete 0 (heap one_box)
      ∧ released s' = 0 :: released one_box
      ∧ new_script s' = new_script one_box ∧ world s' = world one_box.
Proof.
  split; [is_valid|].
  apply (function_destroy_spec one_box 1 (Some 0)). is_valid.
Defined.

(** A temporary box [2] beside a box that owns a counter. *)
Lemma construct_destroy_roundtrip_witness :
  boxes one_box !! 2 = None ∧ can_allocate one_box
  ∧ ∃ l, heap one_box !! l = None
      ∧ (∀ (U : invocable Z Z string Z) (c : carrier U),
           bind (function_of 2 U c) (λ _, function_destroy 2) one_box
           = Done tt (MkState (heap one_box) (boxes one_box)
                        (l :: released one_box)
                        (tail (new_script one_box)) (world one_box)))
      ∧ (∀ f,
           bind (function_fnptr 2 (Some f)) (λ _, function_destroy 2)
                one_box
           = Done tt (MkState (heap one_box) (boxes one_box)
                        (l :: released one_box)
                        (tail (new_script one_box)) (world one_box))).
Proof.
  split; [reflexivity|]. split; [allocates|].
  apply (construct_destroy_roundtrip one_box 2); [reflexivity|allocates].
Defined.

Lemma reset_idempotent_witness :
  valid_box one_box 1 (Some 0)
  ∧ (bind (reset 1) (λ _, reset 1) one_box = reset 1 one_box
     ∧ ∃ s', reset 1 one_box = Done tt s').
Proof.
  split; [is_valid|].
  apply (reset_idempotent one_box 1 (Some 0)). is_valid.
Defined.

(** Constructors for a new box [2] while memory runs out. *)
Lemma failed_constructor_leaves_nothing_witness :
  ¬ can_allocate one_box_oom
  ∧ ((∀ (U : invocable Z Z string Z) (c : carrier U),
        ∃ s', function_of 2 U c one_box_oom = Throw bad_alloc s'
          ∧ boxes s' = boxes one_box_oom ∧ heap s' = heap one_box_oom
          ∧ released s' = released one_box_oom
          ∧ world s' = world one_box_oom)
     ∧ (∀ other l c, holds one_box_oom other l c →
        ∃ s', function_copy 2 other one_box_oom = Throw bad_alloc s'
          ∧ boxes s' = boxes one_box_oom ∧ heap s' = heap one_box_oom
          ∧ released s' = released one_box_oom
          ∧ world s' = world one_box_oom)).
Proof.
  split; [out_of_memory|].
  apply (failed_constructor_leaves_nothing one_box_oom 2). out_of_memory.
Defined.

(** The emptiness tests on the empty box [2]. *)
Lemma emptiness_tests_agree_witness :
  valid_box two_boxes 2 None
  ∧ ∃ yes : bool, operator_bool 2 two_boxes = Done yes two_boxes
      ∧ operator_question 2 two_boxes = Done yes two_boxes
      ∧ (yes = false ↔
         operator_call 2 5%Z two_boxes = Throw EmptyInvocation two_boxes)
      ∧ (yes = true ↔ ∃ l : nat, None = Some l).
Proof.
  assert (valid_box two_boxes 2 None) as Hv
    by (split; [reflexivity|intros ? [=]]).
  split; [exact Hv|].
  apply (emptiness_tests_agree two_boxes 2 None 5%Z Hv).
Defined.

(** [Box b2 = b1] where [b1] owns a counter. *)
Lemma copy_behaves_like_original_witness :
  2 ≠ 1 ∧ valid_box one_box 1 (Some 0)
  ∧ (Some 0 ≠ None → can_allocate one_box)
  ∧ ∃ s1, function_copy 2 1 one_box = Done tt s1
      ∧ ∀ argss,
          results (calls 2 argss s1) = results (calls 1 argss s1)
          ∧ results (calls 2 argss s1) = results (calls 1 argss one_box).
Proof.
  split; [lia|]. split; [is_valid|]. split; [intros _; allocates|].
  apply (copy_behaves_like_original one_box 2 1 (Some 0));
    [lia|is_valid|intros _; allocates].
Defined.

End OwnershipRuns.

(** ** Properties of the f-string engine *)

Section Format.

Local Abbreviation size := String.length.

Implicit Types (s t pre rest needle arg : string) (c : ascii).
Implicit Types (EAS args ps : list string) (n m pos : nat).

(** *** Byte strings *)

Lemma append_cons c s t : String c s +:+ t = String c (s +:+ t).
Proof. reflexivity. Qed.

Lemma append_nil_r s : s +:+ "" = s.
Proof. induction s as [|c s IH]; [done|]. by rewrite append_cons, IH. Qed.

Lemma append_assoc s t rest : (s +:+ t) +:+ rest = s +:+ t +:+ rest.
Proof.
  induction s as [|c s IH]; [done|]. by rewrite !append_cons, IH.
Qed.

Lemma size_append s t : size (s +:+ t) = size s + size t.
Proof.
  induction s as [|c s IH]; [done|]. rewrite append_cons. simpl.
  by rewrite IH.
Qed.

Lemma substring_prefix pre t : String.substring 0 (size pre) (pre +:+ t) = pre.
Proof.
  induction pre as [|c pre IH]; [by destruct t|].
  rewrite append_cons. simpl. by rewrite IH.
Qed.

Lemma substring_whole t : String.substring 0 (size t) t = t.
Proof. induction t as [|c t IH]; [done|]. simpl. by rewrite IH. Qed.

Lemma substring_suffix pre t :
  String.substring (size pre) (size t) (pre +:+ t) = t.
Proof.
  induction pre as [|c pre IH]; [apply substring_whole|].
  rewrite append_cons. simpl. apply IH.
Qed.

Lemma size_substring n m s :
  size (String.substring n m s) = m `min` (size s - n).
Proof.
  revert n m.
  induction s as [|c s IH]; intros [|n] [|m]; simpl;
    rewrite ?IH, ?Nat.sub_0_r; done.
Qed.

(** [replace] on a string cut in three. *)
Lemma string_replace_middle pre t arg rest :
  string_replace (size pre) (size t) arg (pre +:+ t +:+ rest)
  = pre +:+ arg +:+ rest.
Proof.
  unfold string_replace. rewrite substring_prefix. do 2 f_equal.
  rewrite <- append_assoc, <- size_append.
  replace (size ((pre +:+ t) +:+ rest) - size (pre +:+ t)) with (size rest)
    by (rewrite (size_append (pre +:+ t)); lia).
  apply substring_suffix.
Qed.

(** *** Searching *)

Lemma index_cons_0 needle c s :
  String.index 0 needle (String c s)
  = if String.prefix needle (String c s) then Some 0
    else S <$> String.index 0 needle s.
Proof. reflexivity. Qed.

Lemma index_cons_S needle c s n :
  String.index (S n) needle (String c s) = S <$> String.index n needle s.
Proof. reflexivity. Qed.

(** A search that starts behind [pre] does not look at [pre]. *)
Lemma index_skip pre needle n t :
  String.index (size pre + n) needle (pre +:+ t)
  = (λ i, size pre + i) <$> String.index n needle t.
Proof.
  induction pre as [|c pre IH].
  { change (String.index n needle t
            = (λ i, i) <$> String.index n needle t).
    by destruct (String.index n needle t). }
  rewrite append_cons. change (size (String c pre) + n) with (S (size pre + n)).
  rewrite index_cons_S, IH. by destruct (String.index n needle t).
Qed.

Lemma prefix_size needle s :
  String.prefix needle s = true → size needle ≤ size s.
Proof.
  revert s. induction needle as [|a needle IH]; intros [|c s]; simpl;
    try done; try lia.
  destruct (ascii_dec a c); [|done]. intros H%IH. lia.
Qed.

(** A found occurrence lies inside the string. *)
Lemma index_bound needle s : ∀ n m,
  String.index n needle s = Some m → m + size needle ≤ size s.
Proof.
  induction s as [|c s IH]; intros n m.
  - destruct n, needle; simpl; try done. intros [= <-]. simpl. lia.
  - destruct n as [|n].
    + rewrite index_cons_0.
      destruct (String.prefix needle (String c s)) eqn:Hp.
      * intros [= <-]. by apply prefix_size in Hp.
      * destruct (String.index 0 needle s) as [i|] eqn:Hi; [|done].
        intros [= <-]. apply IH in Hi. simpl. lia.
    + rewrite index_cons_S.
      destruct (String.index n needle s) as [i|] eqn:Hi; [|done].
      intros [= <-]. apply IH in Hi. simpl. lia.
Qed.

Lemma plain_cons c s : plain (String c s) = true → c ≠ "\"%char ∧ plain s = true.
Proof.
  simpl. intros [Hc Hs]%andb_prop. split; [|done].
  apply negb_true_iff in Hc. by apply Ascii.eqb_neq in Hc.
Qed.

Lemma prefix_cons a needle c s :
  String.prefix (String a needle) (String c s)
  = if ascii_dec a c then String.prefix needle s else false.
Proof. reflexivity. Qed.

Lemma prefix_placeholder_miss c s :
  c ≠ "\"%char → String.prefix placeholder (String c s) = false.
Proof.
  intros Hc. unfold placeholder. rewrite prefix_cons.
  destruct (ascii_dec "\" c) as [<-|_]; done.
Qed.

Lemma prefix_placeholder_hit rest :
  String.prefix placeholder (placeholder +:+ rest) = true.
Proof. by destruct rest. Qed.

(** In front of a placeholder, plain text is skipped. *)
Lemma index_plain s rest :
  plain s = true →
  String.index 0 placeholder (s +:+ placeholder +:+ rest) = Some (size s).
Proof.
  induction s as [|c s IH]; intros Hs.
  - change ("" +:+ placeholder +:+ rest)
      with (String "\" ("{\}" +:+ rest)).
    rewrite index_cons_0.
    change (String "\" ("{\}" +:+ rest)) with (placeholder +:+ rest).
    by rewrite prefix_placeholder_hit.
  - apply plain_cons in Hs as [Hc Hs].
    rewrite append_cons, index_cons_0, prefix_placeholder_miss by done.
    by rewrite IH.
Qed.

(** Plain text holds no placeholder. *)
Lemma index_plain_none s :
  plain s = true → String.index 0 placeholder s = None.
Proof.
  induction s as [|c s IH]; intros Hs; [done|].
  apply plain_cons in Hs as [Hc Hs].
  by rewrite index_cons_0, prefix_placeholder_miss, IH.
Qed.

(** *** The substitution loop *)

(** The loop on a template, once the text [pre] is behind the search
    position: every argument takes the next placeholder; an argument too
    many finds none. *)
Lemma stringf_loop_template args : ∀ pre p0 ps,
  Forall (λ p, plain p = true) (p0 :: ps) →
  stringf_loop args (pre +:+ template p0 ps) (size pre)
  = if decide (length args ≤ length ps)
    then Formatted (pre +:+ filled p0 ps args)
    else RuntimeError mismatch_message.
Proof.
  induction args as [|arg args IH]; intros pre p0 ps Hplain.
  - cbn [stringf_loop]. rewrite decide_True by (cbn [length]; lia).
    by destruct ps.
  - apply Forall_cons_1 in Hplain as [Hp0 Hps]. cbn [stringf_loop].
    unfold string_find. rewrite <- (Nat.add_0_r (size pre)), index_skip.
    destruct ps as [|p ps]; cbn [template filled length].
    + rewrite index_plain_none by done. cbn [fmap option_fmap option_map].
      by rewrite decide_False by lia.
    + rewrite index_plain by done. cbn [fmap option_fmap option_map].
      rewrite <- size_append, <- (append_assoc pre p0).
      change 4 with (size placeholder).
      rewrite string_replace_middle.
      rewrite <- (append_assoc _ arg), <- !size_append.
      apply Forall_cons_1 in Hps as [Hp Hps].
      rewrite IH by by apply Forall_cons_2.
      destruct (decide (length args ≤ length ps)).
      * rewrite decide_True by lia. by rewrite !append_assoc.
      * by rewrite decide_False by lia.
Qed.

(** A format string whose literal pieces are free of backslashes, given
    no more arguments than it has placeholders, is formatted to the
    pieces with the arguments in between, in order.  Placeholders beyond
    the last argument stay as they are, and an argument is inserted as it
    is, whatever it contains: inserted text is not searched again. *)
Theorem stringf_fills_template p0 ps args :
  Forall (λ p, plain p = true) (p0 :: ps) →
  length args ≤ length ps →
  stringf (template p0 ps) args = Formatted (filled p0 ps args).
Proof.
  intros Hplain Hlen. unfold stringf.
  pose proof (stringf_loop_template args "" p0 ps Hplain) as Hloop.
  change ("" +:+ template p0 ps) with (template p0 ps) in Hloop.
  change (size "") with 0 in Hloop. rewrite Hloop.
  by rewrite decide_True by done.
Qed.

(** The same format string given more arguments than it has placeholders
    makes [stringf] throw its [runtime_error], whatever the arguments. *)
Theorem stringf_argument_count_mismatch p0 ps args :
  Forall (λ p, plain p = true) (p0 :: ps) →
  length ps < length args →
  stringf (template p0 ps) args = RuntimeError mismatch_message.
Proof.
  intros Hplain Hlen. unfold stringf.
  pose proof (stringf_loop_template args "" p0 ps Hplain) as Hloop.
  change ("" +:+ template p0 ps) with (template p0 ps) in Hloop.
  change (size "") with 0 in Hloop. rewrite Hloop.
  by rewrite decide_False by lia.
Qed.

Lemma size_string_replace found arg s :
  found + 4 ≤ size s →
  size (string_replace found 4 arg s) + 4 = size s + size arg.
Proof.
  intros Hin. unfold string_replace.
  rewrite !size_append, !size_substring. lia.
Qed.

Lemma stringf_loop_size EAS : ∀ s pos r,
  stringf_loop EAS s pos = Formatted r →
  size r + 4 * length EAS = size s + total_size EAS.
Proof.
  induction EAS as [|arg EAS IH]; intros s pos r; simpl.
  - intros [= <-]. lia.
  - unfold string_find.
    destruct (String.index pos placeholder s) as [found|] eqn:Hfound;
      [|done].
    intros Hrest%IH. apply index_bound in Hfound.
    change (size placeholder) with 4 in Hfound.
    pose proof (size_string_replace found arg s Hfound). lia.
Qed.

(** Whatever the format string, when [stringf] returns, each argument
    has taken the place of one placeholder of four characters: the size
    of the result is the size of the format string, less four for every
    argument, plus the sizes of the arguments. *)
Theorem stringf_size s EAS r :
  stringf s EAS = Formatted r →
  size r + 4 * length EAS = size s + total_size EAS.
Proof. apply stringf_loop_size. Qed.

(** *** [print] *)

Lemma bytes_append s t : bytes (s +:+ t) = bytes s ++ bytes t.
Proof.
  induction s as [|c s IH]; [done|]. rewrite append_cons. simpl.
  by rewrite IH.
Qed.

Lemma c_str_no_nul s : NUL ∉ bytes (c_str s).
Proof.
  induction s as [|c s IH]; simpl; [apply not_elem_of_nil|].
  destruct (Ascii.eqb c NUL) eqn:Hc; simpl; [apply not_elem_of_nil|].
  apply not_elem_of_cons. split; [|done].
  intros <-. by rewrite Ascii.eqb_refl in Hc.
Qed.

Lemma print_each_no_nul (t : list printable) : NUL ∉ bytes (print_each t).
Proof.
  induction t as [|a t IH]; simpl; [apply not_elem_of_nil|].
  rewrite bytes_append, elem_of_app. intros [H|H]; [|done].
  by apply c_str_no_nul in H.
Qed.

Lemma print_each_app (t u : list printable) :
  print_each (t ++ u) = print_each t +:+ print_each u.
Proof.
  induction t as [|a t IH]; [done|]. simpl.
  by rewrite IH, append_assoc.
Qed.

(** The constructors that give the line feed as terminator: [endl()],
    [endl(nullptr)], [endl('\n')] and [endl(string("\n"))]. *)
Lemma endl_newline_forms :
  end_l endl_default = newline
  ∧ end_l (endl_of_cstr None) = newline
  ∧ end_l (endl_of_char "010") = newline
  ∧ end_l (endl_of_string newline) = newline.
Proof. done. Qed.

Lemma ends_with_endl_snoc (t : list printable) e :
  ends_with_endl (t ++ [Terminator e]) = true.
Proof. unfold ends_with_endl. by rewrite last_snoc. Qed.

(** An [endl] whose text is the line feed (as [endl()], [endl(nullptr)]
    or [endl('\n')] make it), passed as the last argument after arguments
    that do not end in an [endl] themselves, changes nothing: [print]
    writes what it writes without it, the empty call included. *)
Theorem print_explicit_newline (t : list printable) e :
  ends_with_endl t = false → end_l e = newline →
  print (t ++ [Terminator e]) = print t.
Proof.
  intros Hlast He. destruct t as [|a t].
  - simpl. unfold print. simpl. rewrite He. reflexivity.
  - unfold print at 2. rewrite Hlast.
    change ((a :: t) ++ [Terminator e]) with (a :: (t ++ [Terminator e])).
    unfold print.
    change (a :: (t ++ [Terminator e])) with ((a :: t) ++ [Terminator e]).
    rewrite ends_with_endl_snoc, print_each_app, append_nil_r.
    f_equal. simpl. rewrite He. reflexivity.
Qed.

(** Whatever the arguments render to, [print] never writes a [NUL] byte:
    each rendering goes through [printf("%s", ...)] and is cut at its
    first [NUL]. *)
Theorem print_writes_no_nul (t : list printable) : NUL ∉ bytes (print t).
Proof.
  assert (NUL ∉ bytes newline) as Hnl.
  { simpl. apply not_elem_of_cons. split; [done|apply not_elem_of_nil]. }
  destruct t as [|a t]; [done|]. unfold print.
  rewrite bytes_append, elem_of_app. intros [H|H].
  - by apply print_each_no_nul in H.
  - destruct (ends_with_endl (a :: t)); [by apply not_elem_of_nil in H|done].
Qed.

End Format.

(** ** The f-string engine and [print] on sample inputs *)

Section FormatRuns.

Local Ltac all_plain :=
  repeat (apply Forall_cons_2; [reflexivity|]); apply Forall_nil_2.

(** [stringf("hi: \{\} and \{\}!", "a")]: one argument, two placeholders. *)
Lemma stringf_fills_template_witness :
  Forall (λ p, plain p = true) ["hi: "; " and "; "!"]
  ∧ length ["a"] ≤ length [" and "; "!"]
  ∧ stringf (template "hi: " [" and "; "!"]) ["a"]
    = Formatted (filled "hi: " [" and "; "!"] ["a"]).
Proof.
  split; [all_plain|]. split; [simpl; lia|].
  apply (stringf_fills_template "hi: " [" and "; "!"] ["a"]);
    [all_plain|simpl; lia].
Defined.

(** [stringf("hi: \{\}", "a", "b")]: two arguments, one placeholder. *)
Lemma stringf_argument_count_mismatch_witness :
  Forall (λ p, plain p = true) ["hi: "; ""]
  ∧ length [""] < length ["a"; "b"]
  ∧ stringf (template "hi: " [""]) ["a"; "b"]
    = RuntimeError mismatch_message.
Proof.
  split; [all_plain|]. split; [simpl; lia|].
  apply (stringf_argument_count_mismatch "hi: " [""] ["a"; "b"]);
    [all_plain|simpl; lia].
Defined.

(** An argument that is itself a placeholder is not filled by the next. *)
Lemma stringf_size_witness :
  stringf "\{\}\{\}" ["\{\}"; "x"] = Formatted "\{\}x"
  ∧ String.length "\{\}x" + 4 * length ["\{\}"; "x"]
    = String.length "\{\}\{\}" + total_size ["\{\}"; "x"].
Proof.
  split; [reflexivity|].
  apply (stringf_size "\{\}\{\}" ["\{\}"; "x"] "\{\}x"). reflexivity.
Defined.

(** [print("x", e)] with [e] made by [endl(nullptr)]. *)
Lemma print_explicit_newline_witness :
  ends_with_endl [Rendered "x"] = false
  ∧ end_l (endl_of_cstr None) = newline
  ∧ print ([Rendered "x"] ++ [Terminator (endl_of_cstr None)])
    = print [Rendered "x"].
Proof.
  split; [reflexivity|]. split; [reflexivity|].
  apply (print_explicit_newline [Rendered "x"] (endl_of_cstr None));
    reflexivity.
Defined.

End FormatRuns.
